(** * TalentTrack: the skill matcher of the job-portal backend

    A shallow embedding of the part of the server that carries the matching
    logic: [extractSkillsFromText], [calculateMatchScore] and the handler of
    [GET /api/job-recommendations], with the properties the specification
    states about them.

    The first part holds the definitions: strings and numbers as JavaScript
    has them, the three functions, the document store the handler queries,
    and the ranker once more over a heap of arrays.  The second part holds
    the properties, one theorem for each claim of the specification. *)

From Stdlib Require Import Ascii String NArith ZArith QArith Qround Qpower Lqa Lia.
From stdpp Require Import gmap strings list sorting.

Local Open Scope string_scope.
Local Open Scope list_scope.

(** ** JavaScript strings

    A string is a sequence of UTF-16 code units, each a number below 2^16;
    nothing below depends on the bound.  The literals of the server are
    ASCII, and [units] gives the code units of one.

    [String.prototype.toLowerCase] follows the case tables of Unicode.  On a
    string of ASCII units it works unit by unit: [A]..[Z] go to the unit 32
    places further and every other unit stays.  Beyond ASCII the tables are
    those of the engine, not of this repository: there one code point may
    give two ([U+0130] gives [i] and [U+0307]), a unit outside ASCII may give
    an ASCII one ([U+212A] gives [k]), two units may stand for one code
    point, and the Greek capital sigma folds by its neighbours.  [Unicode]
    stands for the engine on those strings, with three facts about it:
    - the fold of a string is the fold of its parts left and right of a
      space (no rule of the tables looks across a space, and no code point
      lies across one);
    - a string of white space is its own fold;
    - a stretch of ASCII units in the fold of a string is still there when
      the string stands inside a longer one (what the neighbours change, the
      sigma and a pair of units at either end, folds to units outside
      ASCII). *)
Module Js.

Fixpoint units (s : string) : list N :=
  match s with
  | EmptyString => []
  | String c s' => N_of_ascii c :: units s'
  end.

(** [startsWith s search]: [search] is read off the front of [s]. *)
Fixpoint startsWith (s search : list N) {struct search} : bool :=
  match search, s with
  | [], _ => true
  | _ :: _, [] => false
  | a :: search', b :: s' =>
      if decide (a = b) then startsWith s' search' else false
  end.

(** [String.prototype.includes]: [search] occurs in [s] at some position. *)
Fixpoint includes (s search : list N) : bool :=
  if startsWith s search then true
  else match s with
       | [] => false
       | _ :: s' => includes s' search
       end.

Definition is_ascii (s : list N) : bool := forallb (λ u, u <? 128)%N s.

Definition lower_ascii (u : N) : N :=
  if ((65 <=? u) && (u <=? 90))%N then (u + 32)%N else u.

(** The units [String.prototype.trim] strips: the white space and the line
    terminators of the language. *)
Definition is_whitespace (u : N) : bool :=
  ((9 <=? u) && (u <=? 13) || (u =? 32) || (u =? 160) || (u =? 5760)
   || (8192 <=? u) && (u <=? 8202) || (u =? 8232) || (u =? 8233)
   || (u =? 8239) || (u =? 8287) || (u =? 12288) || (u =? 65279))%N.

Definition whitespace_only (s : list N) : bool := forallb is_whitespace s.

(** The fold, given what the engine does beyond ASCII. *)
Definition lower_with (lowercase : list N → list N) (s : list N) : list N :=
  if is_ascii s then lower_ascii <$> s else lowercase s.

Class Unicode := {
  lowercase : list N → list N;
  lowercase_space a b :
    lower_with lowercase (a ++ 32%N :: b) =
    lower_with lowercase a ++ 32%N :: lower_with lowercase b;
  lowercase_whitespace s :
    whitespace_only s = true → lower_with lowercase s = s;
  lowercase_stretch pre s post w :
    is_ascii w = true →
    includes (lower_with lowercase s) w = true →
    includes (lower_with lowercase (pre ++ s ++ post)) w = true
}.

Definition toLowerCase `{Unicode} (s : list N) : list N :=
  lower_with lowercase s.

(** An array holds fewer than 2^32 elements. *)
Definition array {A} (l : list A) : Prop := (Z.of_nat (length l) < 2 ^ 32)%Z.

End Js.

(** A literal of the source, as the string it denotes. *)
Abbreviation js := Js.units.

(** ** The skill extractor (server, [extractSkillsFromText]) *)

Definition commonSkills : list (list N) :=
  js <$>
  [ "JavaScript"; "Python"; "Java"; "React"; "Node.js"; "MongoDB"; "SQL";
    "AWS"; "Docker"; "Kubernetes"; "Git"; "HTML"; "CSS"; "TypeScript";
    "Angular"; "Vue.js"; "Express"; "Django"; "Flask"; "Spring Boot";
    "PostgreSQL"; "MySQL"; "Redis"; "GraphQL"; "REST API"; "Machine Learning";
    "Data Science"; "DevOps"; "CI/CD"; "Agile"; "Scrum"; "Project Management" ].

Definition extractSkillsFromText `{!Js.Unicode} (text : list N)
  : list (list N) :=
  filter (λ skill, Js.includes (Js.toLowerCase text) (Js.toLowerCase skill))
         commonSkills.

(** ** JavaScript numbers

    A Number is an IEEE 754 double.  A finite double is kept as the rational
    it denotes, and every arithmetic operation rounds the exact result back to
    a double: 53 significant bits, to nearest, a tie going to the even
    significand.  The exponent range is not modelled: [binary64] is the
    rounding of IEEE 754 on magnitudes between 2^-1022 and 2^1024, where all
    the numbers of the matcher lie (quotients of two array lengths, their
    differences, and a score times 100). *)
Module Number.

(** [ilog2 q] for [0 < q]: the exponent [k] with [2^k <= q < 2^(k+1)]. *)
Definition ilog2 (q : Q) : Z :=
  let k := (Z.log2 (Qnum q) - Z.log2 (Zpos (Qden q)))%Z in
  if Qle_bool (2 ^ k) q then k else (k - 1)%Z.

Definition roundHalfEven (q : Q) : Z :=
  let f := Qfloor q in
  match Qcompare (q - inject_Z f) (1 # 2) with
  | Lt => f
  | Eq => if Z.even f then f else (f + 1)%Z
  | Gt => (f + 1)%Z
  end.

Definition round53 (q : Q) : Q :=
  let e := (ilog2 q - 52)%Z in
  inject_Z (roundHalfEven (q * 2 ^ (- e))) * 2 ^ e.

Definition binary64 (q : Q) : Q :=
  match Qnum q with
  | Z0 => 0
  | Zpos _ => Qred (round53 q)
  | Zneg _ => Qred (- round53 (- q))
  end.

(** The length of an array is an integer below 2^32, which a double holds
    exactly. *)
Definition of_nat (n : nat) : Q := inject_Z (Z.of_nat n).

(** [x / y]; the divisor is never zero where the matcher divides. *)
Definition div (x y : Q) : Q := binary64 (x / y).
Definition mul (x y : Q) : Q := binary64 (x * y).
Definition sub (x y : Q) : Q := binary64 (x - y).

(** [x > y] *)
Definition gt (x y : Q) : bool := negb (Qle_bool x y).

(** Comparisons of numbers are decidable. *)
#[global] Instance lt_decision (x y : Q) : Decision (x < y)%Q :=
  match Qlt_le_dec x y with
  | left H => left H
  | right H => right (Qle_not_lt _ _ H)
  end.
#[global] Instance eq_decision (x y : Q) : Decision (x == y)%Q := Qeq_dec x y.

(** The literal [0.1] is the double next to one tenth. *)
Definition lit_0_1 : Q := binary64 (1 # 10).

(** [Math.round]: the closest integer, a tie going up. *)
Definition Math_round (x : Q) : Q := inject_Z (Qfloor (x + (1 # 2))).

End Number.

(** ** The match scorer (server, [calculateMatchScore]) *)

Definition calculateMatchScore `{!Js.Unicode}
    (userSkills jobSkills : list (list N)) : Q :=
  if (length userSkills =? 0)%nat || (length jobSkills =? 0)%nat then 0
  else
    let userSkillsLower := Js.toLowerCase <$> userSkills in
    let jobSkillsLower := Js.toLowerCase <$> jobSkills in
    let matchingSkills :=
      filter (λ skill, skill ∈ jobSkillsLower) userSkillsLower in
    Number.div (Number.of_nat (length matchingSkills))
               (Number.of_nat (Nat.max (length userSkills) (length jobSkills))).

(** ** Stored documents and plain objects *)

(** The value of a property of a plain object. *)
Inductive Value :=
| VString (s : list N)
| VNumber (q : Q)
| VDate (ms : Z)
| VStrings (l : list (list N)).

(** A job posting, as [jobSchema] declares it.  A string path that was never
    set is absent from the document.  [S] is what stands for the [skills]
    array: its elements in a stored record, its address in a document held in
    memory. *)
Module Job.
Record t (S : Type) := {
  _id : list N;
  title : option (list N);
  company : option (list N);
  location : option (list N);
  salary : option (list N);
  type : option (list N);
  description : option (list N);
  requirements : option (list N);
  companyWebsite : option (list N);
  skills : S;
  postedBy : option (list N);
  postedAt : Z;
  __v : Z
}.
Arguments _id {S}. Arguments title {S}. Arguments company {S}.
Arguments location {S}. Arguments salary {S}. Arguments type {S}.
Arguments description {S}. Arguments requirements {S}.
Arguments companyWebsite {S}. Arguments skills {S}. Arguments postedBy {S}.
Arguments postedAt {S}. Arguments __v {S}.

Abbreviation record := (t (list (list N))).

Definition with_skills {S T} (job : t S) (s : T) : t T :=
  {| _id := _id job; title := title job; company := company job;
     location := location job; salary := salary job; type := type job;
     description := description job; requirements := requirements job;
     companyWebsite := companyWebsite job; skills := s;
     postedBy := postedBy job; postedAt := postedAt job; __v := __v job |}.

Definition put (k : string) (o : option (list N)) (m : gmap string Value)
  : gmap string Value :=
  match o with
  | Some s => <[k := VString s]> m
  | None => m
  end.

(** [job.toObject()]: the plain object with the paths of the document. *)
Definition toObject (job : record) : gmap string Value :=
  put "title" (title job)
  (put "company" (company job)
  (put "location" (location job)
  (put "salary" (salary job)
  (put "type" (type job)
  (put "description" (description job)
  (put "requirements" (requirements job)
  (put "companyWebsite" (companyWebsite job)
  (put "postedBy" (postedBy job)
  (<["skills" := VStrings (skills job)]>
  (<["postedAt" := VDate (postedAt job)]>
  (<["__v" := VNumber (inject_Z (__v job))]>
  {["_id" := VString (_id job)]}))))))))))).
End Job.

(** [user.profile.parsedResume]: an object whose [skills] may be missing. *)
Module ParsedResume.
Record t := { skills : option (list (list N)) }.
End ParsedResume.

(** A user, with the one path of its profile the recommendations read;
    [None] is a [parsedResume] that was never stored. *)
Module User.
Record t := { parsedResume : option ParsedResume.t }.
End User.

(** ** The recommendation ranker (server, [GET /api/job-recommendations]) *)

(** [entry.matchScore] and [entry.matchPercentage], read off an entry.  Every
    entry the ranker builds holds both as numbers; the last case is not
    reached. *)
Definition matchScore (entry : gmap string Value) : Q :=
  match entry !! "matchScore" with
  | Some (VNumber q) => q
  | _ => 0
  end.

Definition matchPercentage (entry : gmap string Value) : Q :=
  match entry !! "matchPercentage" with
  | Some (VNumber q) => q
  | _ => 0
  end.

(** The callback of [allJobs.map]:
    [{...job.toObject(), matchScore, matchPercentage: Math.round(matchScore * 100)}]. *)
Definition recommendation `{!Js.Unicode} (userSkills : list (list N))
    (job : Job.record)
  : gmap string Value :=
  let matchScore := calculateMatchScore userSkills (Job.skills job) in
  <["matchPercentage" := VNumber (Number.Math_round (Number.mul matchScore 100))]>
    (<["matchScore" := VNumber matchScore]> (Job.toObject job)).

Definition recommendations `{!Js.Unicode} (userSkills : list (list N))
    (allJobs : list Job.record)
  : list (gmap string Value) :=
  recommendation userSkills <$> allJobs.

(** [Array.prototype.sort] with a comparator.  The language requires the sort
    to be stable (ECMAScript 2019); the insertion sort below is the stable
    sort: an element moves behind a later one only when the comparator says it
    is greater. *)
Fixpoint sort_insert {A} (compare : A → A → Q) (x : A) (l : list A) : list A :=
  match l with
  | [] => [x]
  | y :: l' =>
      if Qle_bool (compare x y) 0 then x :: l
      else y :: sort_insert compare x l'
  end.

Definition Array_sort {A} (compare : A → A → Q) (l : list A) : list A :=
  foldr (sort_insert compare) [] l.

(** [(a, b) => b.matchScore - a.matchScore] *)
Definition byScoreDescending (a b : gmap string Value) : Q :=
  Number.sub (matchScore b) (matchScore a).

Definition topRecommendations `{!Js.Unicode} (userSkills : list (list N))
    (allJobs : list Job.record) : list (gmap string Value) :=
  take 10
    (Array_sort byScoreDescending
       (filter (λ job, Number.gt (matchScore job) Number.lit_0_1)
               (recommendations userSkills allJobs))).

(** ** The document store and the handler *)

Module Db.

(** The queries the server sends to the store. *)
Inductive Query :=
| UserFindById (id : list N)
| UserFindByIdAndUpdate (id : list N)
| JobFind
| JobSave
| JobDeleteMany
| JobInsertMany.

Record Store := {
  users : gmap (list N) User.t;
  jobs : list Job.record;
  queries : list Query  (* the queries received so far, oldest first *)
}.

Definition M (A : Type) : Type := Store → A * Store.

Definition ret {A} (a : A) : M A := λ st, (a, st).
Definition bind {A B} (m : M A) (k : A → M B) : M B :=
  λ st, let (a, st') := m st in k a st'.

Definition received (q : Query) (st : Store) : Store :=
  {| users := users st; jobs := jobs st; queries := queries st ++ [q] |}.

(** [User.findById(id)] *)
Definition User_findById (id : list N) : M (option User.t) :=
  λ st, (users st !! id, received (UserFindById id) st).

(** [User.findByIdAndUpdate(id, {'profile.parsedResume': parsedData})] *)
Definition User_findByIdAndUpdate (id : list N) (parsedData : ParsedResume.t)
  : M unit :=
  λ st, (tt, received (UserFindByIdAndUpdate id)
               {| users := alter (λ _, {| User.parsedResume := Some parsedData |})
                                 id (users st);
                  jobs := jobs st; queries := queries st |}).

(** [Job.find()] *)
Definition Job_find : M (list Job.record) :=
  λ st, (jobs st, received JobFind st).

(** [job.save()] of a new posting *)
Definition Job_save (job : Job.record) : M unit :=
  λ st, (tt, received JobSave
               {| users := users st; jobs := jobs st ++ [job];
                  queries := queries st |}).

(** [Job.deleteMany({})] *)
Definition Job_deleteMany : M unit :=
  λ st, (tt, received JobDeleteMany
               {| users := users st; jobs := []; queries := queries st |}).

(** [Job.insertMany(docs)] *)
Definition Job_insertMany (docs : list Job.record) : M unit :=
  λ st, (tt, received JobInsertMany
               {| users := users st; jobs := jobs st ++ docs;
                  queries := queries st |}).

End Db.

#[global] Instance Db_ret : MRet Db.M := @Db.ret.
#[global] Instance Db_bind : MBind Db.M := λ A B k m, Db.bind m k.

(** What [res.status(..).json(..)] sends; a key the body lacks is [None]. *)
Record Response := {
  status : Z;
  success : bool;
  res_recommendations : option (list (gmap string Value));
  res_userSkills : option (list (list N));
  message : option (list N)
}.

(** [app.get('/api/job-recommendations', ...)], after the token check has set
    [req.user.id].  A user that is not found makes [user.profile] throw, and
    the [catch] answers.  A store that fails to answer is not modelled. *)
Definition job_recommendations `{!Js.Unicode} (req_user_id : list N)
  : Db.M Response :=
  user ← Db.User_findById req_user_id;
  match user with
  | None =>
      mret {| status := 500; success := false;
              res_recommendations := None; res_userSkills := None;
              message := Some (js "Error getting recommendations") |}
  | Some user =>
      match User.parsedResume user with
      | None =>
          mret {| status := 200; success := true;
                  res_recommendations := Some []; res_userSkills := None;
                  message := Some (js "No resume uploaded yet") |}
      | Some parsedResume =>
          let userSkills := default [] (ParsedResume.skills parsedResume) in
          allJobs ← Db.Job_find;
          mret {| status := 200; success := true;
                  res_recommendations :=
                    Some (topRecommendations userSkills allJobs);
                  res_userSkills := Some userSkills;
                  message := None |}
      end
  end.


(** ** Arrays as objects in memory

    The functions above take an array for the list of its elements.  An array
    is an object with an identity, and [sort] reorders it in place; to tell
    which arrays the ranker writes to, this section states the same code over
    a heap of arrays.  [map], [filter] and [slice] build a new array, [sort]
    overwrites the one it is called on, [length] and [includes] only read.
    A new array enters the heap once its elements are known.  Reading an
    address that holds no array of the expected kind is the
    [TypeError] of a call on [undefined]; it yields [None]. *)
Module Heap.

Definition loc := positive.

Inductive Cell :=
| Strings (l : list (list N))
| Jobs (l : list (Job.t loc))
| Entries (l : list (gmap string Value)).

Definition M (A : Type) : Type :=
  gmap loc Cell → option (A * gmap loc Cell).

Definition ret {A} (a : A) : M A := λ h, Some (a, h).
Definition bind {A B} (m : M A) (k : A → M B) : M B :=
  λ h, match m h with
       | Some (a, h') => k a h'
       | None => None
       end.

#[global] Instance M_ret : MRet M := @ret.
#[global] Instance M_bind : MBind M := λ A B k m, bind m k.

(** A new array, at an address not yet in use. *)
Definition alloc (c : Cell) : M loc :=
  λ h, let ℓ := fresh (dom h) in Some (ℓ, <[ℓ := c]> h).

(** Overwriting the elements of an existing array. *)
Definition store (ℓ : loc) (c : Cell) : M unit :=
  λ h, match h !! ℓ with
       | Some _ => Some (tt, <[ℓ := c]> h)
       | None => None
       end.

Definition strings (ℓ : loc) : M (list (list N)) :=
  λ h, match h !! ℓ with
       | Some (Strings l) => Some (l, h)
       | _ => None
       end.

Definition jobs (ℓ : loc) : M (list (Job.t loc)) :=
  λ h, match h !! ℓ with
       | Some (Jobs l) => Some (l, h)
       | _ => None
       end.

Definition entries (ℓ : loc) : M (list (gmap string Value)) :=
  λ h, match h !! ℓ with
       | Some (Entries l) => Some (l, h)
       | _ => None
       end.

Fixpoint mapM {A B} (f : A → M B) (l : list A) : M (list B) :=
  match l with
  | [] => mret []
  | x :: l' => y ← f x; r ← mapM f l'; mret (y :: r)
  end.

Fixpoint filterM {A} (p : A → M bool) (l : list A) : M (list A) :=
  match l with
  | [] => mret []
  | x :: l' =>
      bind (p x) (λ b : bool,
        r ← filterM p l'; mret (if b then x :: r else r))
  end.

(** [array.length] *)
Definition length (ℓ : loc) : M nat :=
  l ← strings ℓ; mret (List.length l).

(** [array.map(f)] on an array of strings *)
Definition map (f : list N → list N) (ℓ : loc) : M loc :=
  l ← strings ℓ; alloc (Strings (f <$> l)).

(** [array.includes(x)] *)
Definition includes (ℓ : loc) (x : list N) : M bool :=
  l ← strings ℓ; mret (bool_decide (x ∈ l)).

(** [array.filter(callback)] on an array of strings *)
Definition filter (callback : list N → M bool) (ℓ : loc) : M loc :=
  l ← strings ℓ; r ← filterM callback l; alloc (Strings r).

Definition calculateMatchScore `{!Js.Unicode} (userSkills jobSkills : loc)
  : M Q :=
  n ← length userSkills;
  m ← length jobSkills;
  if (n =? 0)%nat || (m =? 0)%nat then mret 0%Q
  else
    userSkillsLower ← map Js.toLowerCase userSkills;
    jobSkillsLower ← map Js.toLowerCase jobSkills;
    matchingSkills ←
      filter (λ skill, includes jobSkillsLower skill) userSkillsLower;
    k ← length matchingSkills;
    n ← length userSkills;
    m ← length jobSkills;
    mret (Number.div (Number.of_nat k) (Number.of_nat (Nat.max n m))).

(** [job.toObject()] copies the paths of the document, its array of skills
    included. *)
Definition toObject (job : Job.t loc) : M (gmap string Value) :=
  skills ← strings (Job.skills job);
  mret (Job.toObject (Job.with_skills job skills)).

Definition recommendation `{!Js.Unicode} (userSkills : loc) (job : Job.t loc)
  : M (gmap string Value) :=
  matchScore ← calculateMatchScore userSkills (Job.skills job);
  object ← toObject job;
  mret (<["matchPercentage" :=
            VNumber (Number.Math_round (Number.mul matchScore 100))]>
          (<["matchScore" := VNumber matchScore]> object)).

(** [allJobs.map(job => ...)] *)
Definition recommendations `{!Js.Unicode} (userSkills allJobs : loc) : M loc :=
  l ← jobs allJobs;
  r ← mapM (recommendation userSkills) l;
  alloc (Entries r).

(** [recommendations.filter(...).sort(...).slice(0, 10)] *)
Definition topRecommendations (recommendations : loc) : M loc :=
  l ← entries recommendations;
  kept ← alloc (Entries (base.filter
            (λ job, Number.gt (matchScore job) Number.lit_0_1) l));
  l ← entries kept;
  _ ← store kept (Entries (Array_sort byScoreDescending l));
  l ← entries kept;
  alloc (Entries (take 10 l)).

(** The ranker: lines 261 to 274 of the handler. *)
Definition rank `{!Js.Unicode} (userSkills allJobs : loc) : M loc :=
  recommendations ← recommendations userSkills allJobs;
  topRecommendations recommendations.

(** The stored record a document in memory stands for. *)
Definition record (h : gmap loc Cell) (job : Job.t loc) : option Job.record :=
  match h !! Job.skills job with
  | Some (Strings s) => Some (Job.with_skills job s)
  | _ => None
  end.

End Heap.

(** ** What the specification calls a case-insensitive occurrence *)

(** The entry occurs in the text once both are folded to lower case: the
    entry is not absent from the lowercase form of the text. *)
Definition occurs_ignoring_case `{!Js.Unicode} (skill text : list N) : Prop :=
  ∃ pre post,
    Js.toLowerCase text = pre ++ Js.toLowerCase skill ++ post.

(** Two units that are the same up to the case of a letter of [A]..[Z]; the
    fold of the language is not used to say so. *)
Definition same_letter (c d : N) : Prop :=
  c = d ∨
  ((65 ≤ c)%N ∧ (c ≤ 90)%N ∧ d = (c + 32)%N) ∨
  ((65 ≤ d)%N ∧ (d ≤ 90)%N ∧ c = (d + 32)%N).

(** Some stretch of the text spells the entry, letter by letter, whatever the
    case of each letter. *)
Definition spelled_in (skill text : list N) : Prop :=
  ∃ pre u post, text = pre ++ u ++ post ∧ Forall2 same_letter u skill.

(** An entry of the vocabulary starts, in lower case, with a unit that is not
    white space. *)
Definition starts_visibly `{!Js.Unicode} (skill : list N) : bool :=
  match Js.toLowerCase skill with
  | [] => false
  | c :: _ => negb (Js.is_whitespace c)
  end.


(** ** What the specification calls the score of two skill sets

    The two sets are folded to lower case and intersected; the size of the
    intersection is divided by the size of the larger set. *)
Definition fold_case `{!Js.Unicode} (A : gset (list N)) : gset (list N) :=
  set_map Js.toLowerCase A.

Definition score `{!Js.Unicode} (A B : gset (list N)) : Q :=
  if decide (A = ∅ ∨ B = ∅) then 0
  else Number.div (Number.of_nat (size (fold_case A ∩ fold_case B)))
                  (Number.of_nat (size A `max` size B)).

(** ** Sorting

    [stays_before compare a b]: the comparator lets [a] stay in front of [b]. *)
Definition stays_before {A} (compare : A → A → Q) (a b : A) : Prop :=
  (compare a b <= 0)%Q.

(** ** What the specification calls an entry of a job

    [adds_two_fields object entry]: the entry holds every property of the
    plain object of the job with its value, and two properties more,
    [matchScore] and [matchPercentage], which the object does not have. *)
Definition adds_two_fields (object entry : gmap string Value) : Prop :=
  (∀ k v, object !! k = Some v → entry !! k = Some v) ∧
  (dom entry = dom object ∪ {["matchScore"; "matchPercentage"]}) ∧
  ("matchScore" ∉ dom object) ∧ ("matchPercentage" ∉ dom object).

(** The paths of [jobSchema], with the two the store adds. *)
Definition job_paths : list string :=
  [ "_id"; "title"; "company"; "location"; "salary"; "type"; "description";
    "requirements"; "companyWebsite"; "skills"; "postedBy"; "postedAt";
    "__v" ].

(** [carries_job job entry]: the entry holds every path of the job with the
    value the job has there, and lacks the string paths the job lacks. *)
Definition carries_job (job : Job.record) (entry : gmap string Value) : Prop :=
  entry !! "_id" = Some (VString (Job._id job)) ∧
  entry !! "title" = VString <$> Job.title job ∧
  entry !! "company" = VString <$> Job.company job ∧
  entry !! "location" = VString <$> Job.location job ∧
  entry !! "salary" = VString <$> Job.salary job ∧
  entry !! "type" = VString <$> Job.type job ∧
  entry !! "description" = VString <$> Job.description job ∧
  entry !! "requirements" = VString <$> Job.requirements job ∧
  entry !! "companyWebsite" = VString <$> Job.companyWebsite job ∧
  entry !! "skills" = Some (VStrings (Job.skills job)) ∧
  entry !! "postedBy" = VString <$> Job.postedBy job ∧
  entry !! "postedAt" = Some (VDate (Job.postedAt job)) ∧
  entry !! "__v" = Some (VNumber (inject_Z (Job.__v job))).

(** [extends_job job entry]: the entry is the job with two fields more: it
    holds every path of the job, [matchScore] and [matchPercentage] as
    numbers, and nothing else. *)
Definition extends_job (job : Job.record) (entry : gmap string Value) : Prop :=
  carries_job job entry ∧
  (∃ s p, entry !! "matchScore" = Some (VNumber s) ∧
          entry !! "matchPercentage" = Some (VNumber p)) ∧
  (∀ k, k ∉ job_paths → k ≠ "matchScore" → k ≠ "matchPercentage" →
        entry !! k = None).

(** ** Sample data of the server

    The skills the resume upload stores for every resume, and the six
    postings of the seed route as the store holds them once inserted; the ids
    and dates, which the store assigns, are placeholders. *)
Definition parsedData_skills : list (list N) :=
  js <$> ["JavaScript"; "React"; "Node.js"; "MongoDB"; "Express"].

(** Ids of users as the store draws them, for the examples. *)
Definition user_1 : list N := js "65f1c0de65f1c0de65f1c0a1".
Definition user_2 : list N := js "65f1c0de65f1c0de65f1c0a2".
Definition user_3 : list N := js "65f1c0de65f1c0de65f1c0a3".

Definition posting (id title company location salary type description
    requirements : string) (skills : list string) : Job.record :=
  {| Job._id := js id; Job.title := Some (js title);
     Job.company := Some (js company); Job.location := Some (js location);
     Job.salary := Some (js salary); Job.type := Some (js type);
     Job.description := Some (js description);
     Job.requirements := Some (js requirements); Job.companyWebsite := None;
     Job.skills := js <$> skills; Job.postedBy := None; Job.postedAt := 0;
     Job.__v := 0 |}.

Definition sampleJobs : list Job.record :=
  [ posting "65f1c0de65f1c0de65f1c0d1" "Frontend Developer" "TechCorp Inc." "Remote"
      "$80,000 - $120,000" "Full Time"
      "We are looking for a skilled Frontend Developer to join our team. You will be responsible for building user-friendly web applications using modern technologies."
      "Experience with React, JavaScript, HTML, CSS. Knowledge of TypeScript and modern build tools is a plus."
      ["React"; "JavaScript"; "HTML"; "CSS"; "TypeScript"];
    posting "65f1c0de65f1c0de65f1c0d2" "Backend Developer" "StartupXYZ" "San Francisco, CA"
      "$90,000 - $130,000" "Full Time"
      "Join our fast-growing startup as a Backend Developer. You will work on scalable server-side applications and APIs."
      "Strong experience with Node.js, MongoDB, Express. Knowledge of AWS and Docker is preferred."
      ["Node.js"; "MongoDB"; "Express"; "AWS"; "Docker"];
    posting "65f1c0de65f1c0de65f1c0d3" "Full Stack Developer" "Digital Solutions" "New York, NY"
      "$100,000 - $150,000" "Full Time"
      "We need a Full Stack Developer who can work on both frontend and backend development. Experience with modern web technologies required."
      "Proficient in React, Node.js, MongoDB, Express. Experience with Git and agile methodologies."
      ["React"; "Node.js"; "MongoDB"; "Express"; "Git"];
    posting "65f1c0de65f1c0de65f1c0d4" "DevOps Engineer" "CloudTech" "Austin, TX"
      "$110,000 - $160,000" "Full Time"
      "Join our DevOps team to help build and maintain our cloud infrastructure. Experience with CI/CD pipelines required."
      "Experience with AWS, Docker, Kubernetes, CI/CD. Knowledge of monitoring and logging tools."
      ["AWS"; "Docker"; "Kubernetes"; "CI/CD"; "DevOps"];
    posting "65f1c0de65f1c0de65f1c0d5" "Data Scientist" "Analytics Pro" "Boston, MA"
      "$120,000 - $180,000" "Full Time"
      "We are seeking a Data Scientist to help us extract insights from large datasets and build machine learning models."
      "Experience with Python, Machine Learning, SQL. Knowledge of statistical analysis and data visualization."
      ["Python"; "Machine Learning"; "SQL"; "Data Science"];
    posting "65f1c0de65f1c0de65f1c0d6" "UI/UX Designer" "Creative Studio" "Los Angeles, CA"
      "$70,000 - $110,000" "Full Time"
      "Join our creative team as a UI/UX Designer. You will be responsible for creating beautiful and functional user interfaces."
      "Experience with design tools like Figma, Sketch. Knowledge of user research and prototyping."
      ["Figma"; "UI/UX"; "Design"; "Prototyping"] ].



(** A stand-in for the engine, to run the matcher on examples: the fold of
    ASCII and Latin-1, of [U+0130] and of the Kelvin and Angstrom signs,
    every other unit left alone. *)
Definition example_lower_unit (u : N) : list N :=
  if ((65 <=? u) && (u <=? 90))%N then [(u + 32)%N]
  else if ((192 <=? u) && (u <=? 222) && negb (u =? 215))%N then [(u + 32)%N]
  else if (u =? 304)%N then [105%N; 775%N]
  else if (u =? 8490)%N then [107%N]
  else if (u =? 8491)%N then [229%N]
  else [u].

Definition example_lowercase (s : list N) : list N :=
  s ≫= example_lower_unit.

Definition example_unicode : Js.Unicode.
Proof.
  assert (∀ s, Js.lower_with example_lowercase s = example_lowercase s) as E.
  { intros s. unfold Js.lower_with.
    destruct (Js.is_ascii s) eqn:Hs; [|reflexivity].
    induction s as [|u s IH]; [reflexivity|].
    simpl in Hs. apply andb_prop in Hs as [Hu Hs].
    unfold example_lowercase in *. rewrite fmap_cons, bind_cons, IH by exact Hs.
    apply N.ltb_lt in Hu.
    unfold Js.lower_ascii, example_lower_unit.
    destruct ((65 <=? u)%N && (u <=? 90)%N); [reflexivity|].
    replace (192 <=? u)%N with false by (symmetry; apply N.leb_gt; lia).
    replace (u =? 304)%N with false by (symmetry; apply N.eqb_neq; lia).
    replace (u =? 8490)%N with false by (symmetry; apply N.eqb_neq; lia).
    replace (u =? 8491)%N with false by (symmetry; apply N.eqb_neq; lia).
    reflexivity. }
  assert (∀ w x b, Js.startsWith x w = true → Js.startsWith (x ++ b) w = true)
    as S1.
  { induction w as [|c w IH]; intros [|d x] b H; simpl in *;
      [done | done | done |].
    destruct (decide (c = d)); [by apply IH | done]. }
  assert (∀ w x b, Js.includes x w = true → Js.includes (x ++ b) w = true)
    as S2.
  { intros w x b. induction x as [|d x IH].
    - simpl. destruct w; [|done]. intros _. by destruct b.
    - change (Js.includes (d :: x) w)
        with (if Js.startsWith (d :: x) w then true else Js.includes x w).
      change (Js.includes ((d :: x) ++ b) w)
        with (if Js.startsWith ((d :: x) ++ b) w then true
              else Js.includes (x ++ b) w).
      destruct (Js.startsWith (d :: x) w) eqn:H0.
      + intros _. by rewrite (S1 w (d :: x) b H0).
      + intros H. rewrite (IH H).
        by destruct (Js.startsWith ((d :: x) ++ b) w). }
  assert (∀ w a x, Js.includes x w = true → Js.includes (a ++ x) w = true)
    as S3.
  { intros w a x H. induction a as [|c a IH]; [done|].
    change (Js.includes ((c :: a) ++ x) w)
      with (if Js.startsWith ((c :: a) ++ x) w then true
            else Js.includes (a ++ x) w).
    rewrite IH. by destruct (Js.startsWith ((c :: a) ++ x) w). }
  refine {| Js.lowercase := example_lowercase |}.
  - intros a b. rewrite !E. unfold example_lowercase.
    rewrite bind_app, bind_cons. reflexivity.
  - intros s Hs. rewrite E. unfold example_lowercase.
    induction s as [|u s IH]; [reflexivity|].
    simpl in Hs. apply andb_prop in Hs as [Hu Hs].
    rewrite bind_cons, IH by exact Hs.
    replace (example_lower_unit u) with [u]; [reflexivity|].
    unfold Js.is_whitespace in Hu.
    repeat (apply orb_prop in Hu as [Hu|Hu]);
      repeat (apply andb_prop in Hu as [? Hu]);
      repeat match goal with
      | H : (_ <=? _)%N = true |- _ => apply N.leb_le in H
      | H : (_ =? _)%N = true |- _ => apply N.eqb_eq in H
      end;
      unfold example_lower_unit;
      (assert (((65 <=? u) && (u <=? 90))%N = false) as ->
         by (rewrite andb_false_iff, !N.leb_gt; lia));
      (assert (((192 <=? u) && (u <=? 222) && negb (u =? 215))%N = false) as ->
         by (rewrite !andb_false_iff, !N.leb_gt; lia));
      (assert ((u =? 304)%N = false) as -> by (apply N.eqb_neq; lia));
      (assert ((u =? 8490)%N = false) as -> by (apply N.eqb_neq; lia));
      (assert ((u =? 8491)%N = false) as -> by (apply N.eqb_neq; lia));
      reflexivity.
  - intros pre s post w _ H. rewrite E in *. unfold example_lowercase.
    rewrite !bind_app. by apply S3, S2.
Defined.

#[global] Existing Instance example_unicode.

(** ** Words for the further properties *)

(** [matches A B]: how many entries of [A] read, in lower case, as an entry
    of [B] does. *)
Definition matches `{!Js.Unicode} (A B : list (list N)) : nat :=
  length (filter (λ a, Js.toLowerCase a ∈ Js.toLowerCase <$> B) A).

(** ** The other routes of the server

    The routes are functions on the collections of the store.  What the
    libraries draw at run time is an argument of the route: the [_id] of a
    new document and the time of [Date.now].  Request bodies carry strings
    where the forms of the client send strings; a field a body may lack is an
    [option].  The id of a user is the one the server wrote into the token,
    which is well-formed; the id of a job comes from the request and is cast
    to an [ObjectId], which fails on a string that is not one.  The store is
    taken to answer; requests are served one after the other. *)

(** [a + ' ' + b] on fields that may be [undefined]: the missing field reads
    as the text [undefined]. *)
Definition to_string (field : option (list N)) : list N :=
  default (js "undefined") field.

(** [extractSkillsFromText(requirements + ' ' + description)], the skills a
    posted job is stored with. *)
Definition posted_skills `{!Js.Unicode}
    (requirements description : option (list N)) : list (list N) :=
  extractSkillsFromText
    (to_string requirements ++ js " " ++ to_string description).

(** [regex.test(s)] for a pattern that is a plain alternation of literals,
    without anchors or flags: some alternative occurs in [s]. *)
Definition regex_test (alternatives : list (list N)) (s : list N) : bool :=
  existsb (λ alt, Js.includes s alt) alternatives.

(** [const allowedTypes = /pdf|doc|docx/] *)
Definition allowedTypes : list (list N) := js <$> ["pdf"; "doc"; "docx"].

(** The [fileFilter] of the upload, on [path.extname(file.originalname)] and
    [file.mimetype]; [true] is the call [cb(null, true)], [false] the call of
    [cb] with the error. *)
Definition fileFilter `{!Js.Unicode} (extname_originalname mimetype : list N)
  : bool :=
  let extname := regex_test allowedTypes (Js.toLowerCase extname_originalname) in
  let mimetype := regex_test allowedTypes mimetype in
  mimetype && extname.

(** What the password and token libraries do.  [bcrypt.hash] draws a salt;
    [jwt.sign] stamps the time and throws without a secret, which is
    [None]. *)
Class Crypto := {
  bcrypt_hash : list N → list N → list N;    (* password, salt *)
  bcrypt_compare : list N → list N → bool;   (* password, hash *)
  jwt_sign : list N → list N → list N → Z → option (list N)
                                             (* id, email, role, time *)
}.

(** What the store does with the id of a query: the cast of a string to an
    [ObjectId].  [Some i] is the id, in the form the store keeps and prints;
    [None] is the [CastError] of a string that is not an id. *)
Class Mongoose := {
  castObjectId : list N → option (list N)
}.

Module Portal.

(** [userSchema]: the account, and the profile as the ranker reads it. *)
Record user := {
  user_id : list N;
  name : list N;
  email : list N;
  password : list N;
  role : list N;
  profile : User.t
}.

(** [resumeSchema] *)
Record resume := {
  resume_userId : list N;
  originalName : list N;
  filePath : list N;
  parsedData : ParsedResume.t;
  uploadedAt : Z
}.

(** [applicationSchema] *)
Record application := {
  jobId : list N;
  userId : list N;
  appliedAt : Z;
  application_status : list N
}.

(** The collections, each in the order of insertion. *)
Record Store := {
  users : list user;
  jobs : list Job.record;
  resumes : list resume;
  applications : list application
}.

(** What a route sends besides [success] and [message]. *)
Inductive Payload :=
| Nothing
| Session (token name email role : list N)
| Posted (job : Job.record)
| Parsed (parsedData : ParsedResume.t)
| Count (count : nat).

Record Reply := {
  status : Z;
  success : bool;
  message : option (list N);
  payload : Payload
}.

Definition M (A : Type) : Type := Store → A * Store.

(** [User.findOne({ email })] *)
Definition User_findOne (e : list N) (st : Store) : option user :=
  List.find (λ u, bool_decide (email u = e)) (users st).

(** [User.findById(id)] *)
Definition User_findById (id : list N) (st : Store) : option user :=
  List.find (λ u, bool_decide (user_id u = id)) (users st).

(** [user.save()] of a new user *)
Definition User_save (u : user) (st : Store) : Store :=
  {| users := users st ++ [u]; jobs := jobs st; resumes := resumes st;
     applications := applications st |}.

(** [User.findByIdAndUpdate(id, {'profile.parsedResume': parsedData, ...})]:
    the first user with the id is updated; without one nothing happens. *)
Fixpoint update_first (id : list N) (parsedData : ParsedResume.t)
    (l : list user) : list user :=
  match l with
  | [] => []
  | u :: l' =>
      if bool_decide (user_id u = id)
      then {| user_id := user_id u; name := name u; email := email u;
              password := password u; role := role u;
              profile := {| User.parsedResume := Some parsedData |} |} :: l'
      else u :: update_first id parsedData l'
  end.

Definition User_findByIdAndUpdate (id : list N) (parsedData : ParsedResume.t)
    (st : Store) : Store :=
  {| users := update_first id parsedData (users st); jobs := jobs st;
     resumes := resumes st; applications := applications st |}.

(** [Job.findById(id)]: the outer [None] is the [CastError] of an id that is
    not one, the inner [None] the answer [null]. *)
Definition Job_findById `{Mongoose} (id : list N) (st : Store)
  : option (option Job.record) :=
  i ← castObjectId id;
  Some (List.find (λ j, bool_decide (Job._id j = i)) (jobs st)).

(** [Application.findOne({ jobId, userId })], once the [jobId] is cast *)
Definition Application_findOne (j u : list N) (st : Store)
  : option application :=
  List.find (λ a, bool_decide (jobId a = j) && bool_decide (userId a = u))
            (applications st).

(** [app.post('/api/signup', ...)] *)
Definition signup `{Crypto} (_id salt : list N) (now : Z)
    (name email password role : list N) : M Reply :=
  λ st,
  match User_findOne email st with
  | Some existingUser =>
      ({| status := 400; success := false;
          message := Some (js "Email already exists"); payload := Nothing |}, st)
  | None =>
      let hashedPassword := bcrypt_hash password salt in
      let user := {| user_id := _id; name := name; email := email;
                     password := hashedPassword; role := role;
                     profile := {| User.parsedResume := None |} |} in
      let st' := User_save user st in
      match jwt_sign _id email role now with
      | Some token =>
          ({| status := 200; success := true; message := None;
              payload := Session token name email role |}, st')
      | None =>
          ({| status := 500; success := false;
              message := Some (js "Server error"); payload := Nothing |}, st')
      end
  end.

(** [app.post('/api/login', ...)] *)
Definition login `{Crypto} (now : Z) (email password : list N) : M Reply :=
  λ st,
  match User_findOne email st with
  | None =>
      ({| status := 400; success := false;
          message := Some (js "Invalid credentials"); payload := Nothing |}, st)
  | Some user =>
      if bcrypt_compare password (Portal.password user) then
        match jwt_sign (user_id user) (Portal.email user) (role user) now with
        | Some token =>
            ({| status := 200; success := true; message := None;
                payload := Session token (name user) (Portal.email user)
                                   (role user) |}, st)
        | None =>
            ({| status := 500; success := false;
                message := Some (js "Server error"); payload := Nothing |}, st)
        end
      else
        ({| status := 400; success := false;
            message := Some (js "Invalid credentials"); payload := Nothing |}, st)
  end.

(** [req.file], once the upload middleware has stored the file. *)
Record File := {
  originalname : list N;
  path : list N;
  size : Z
}.

(** The mock the upload route stores for every resume. *)
Definition mock_parsedData : ParsedResume.t :=
  {| ParsedResume.skills :=
       Some (js <$> ["JavaScript"; "React"; "Node.js"; "MongoDB"; "Express"]) |}.

(** [app.post('/api/upload-resume', ...)], after the token check and the
    upload middleware. *)
Definition upload_resume (req_user_id : list N) (req_file : option File)
    (now : Z) : M Reply :=
  λ st,
  match req_file with
  | None =>
      ({| status := 400; success := false;
          message := Some (js "No file uploaded"); payload := Nothing |}, st)
  | Some file =>
      let parsedData := mock_parsedData in
      let resume := {| resume_userId := req_user_id;
                       originalName := originalname file;
                       filePath := path file;
                       parsedData := parsedData; uploadedAt := now |} in
      let st1 := {| users := users st; jobs := jobs st;
                    resumes := resumes st ++ [resume];
                    applications := applications st |} in
      let st2 := User_findByIdAndUpdate req_user_id parsedData st1 in
      ({| status := 200; success := true;
          message := Some (js "Resume uploaded successfully");
          payload := Parsed parsedData |}, st2)
  end.

(** [app.post('/api/jobs', ...)], after the token check. *)
Definition post_job `{!Js.Unicode} (req_user_email _id : list N) (now : Z)
    (title company location salary type description requirements
       companyWebsite : option (list N)) : M Reply :=
  λ st,
  let skills := posted_skills requirements description in
  let job : Job.record :=
    {| Job._id := _id; Job.title := title; Job.company := company;
       Job.location := location; Job.salary := salary; Job.type := type;
       Job.description := description; Job.requirements := requirements;
       Job.companyWebsite := companyWebsite; Job.skills := skills;
       Job.postedBy := Some req_user_email; Job.postedAt := now;
       Job.__v := 0 |} in
  ({| status := 200; success := true;
      message := Some (js "Job posted successfully"); payload := Posted job |},
   {| users := users st; jobs := jobs st ++ [job]; resumes := resumes st;
      applications := applications st |}).

(** [app.get('/api/jobs/:id', ...)]; the [catch] answers a failed cast. *)
Definition get_job `{Mongoose} (id : list N) : M Reply :=
  λ st,
  match Job_findById id st with
  | None =>
      ({| status := 500; success := false;
          message := Some (js "Error fetching job"); payload := Nothing |}, st)
  | Some None =>
      ({| status := 404; success := false;
          message := Some (js "Job not found"); payload := Nothing |}, st)
  | Some (Some job) =>
      ({| status := 200; success := true; message := None;
          payload := Posted job |}, st)
  end.

(** [app.post('/api/apply', ...)], after the token check.  The query casts
    [req.body.jobId]; on a string that is not an id it throws, the [catch]
    answers and nothing is stored. *)
Definition apply_to_job `{Mongoose} (req_user_id : list N) (now : Z)
    (jobId : list N) : M Reply :=
  λ st,
  match castObjectId jobId with
  | None =>
      ({| status := 500; success := false;
          message := Some (js "Error applying to job");
          payload := Nothing |}, st)
  | Some job_id =>
      match Application_findOne job_id req_user_id st with
      | Some existing =>
          ({| status := 400; success := false;
              message := Some (js "Already applied to this job.");
              payload := Nothing |}, st)
      | None =>
          let application := {| Portal.jobId := job_id; userId := req_user_id;
                                appliedAt := now;
                                application_status := js "pending" |} in
          ({| status := 200; success := true;
              message := Some (js "Application submitted!");
              payload := Nothing |},
           {| users := users st; jobs := jobs st; resumes := resumes st;
              applications := applications st ++ [application] |})
      end
  end.

(** A sample posting as [insertMany] stores it: with the id and the date it
    is given on insertion. *)
Definition stamped (_id : list N) (postedAt : Z) (job : Job.record)
  : Job.record :=
  {| Job._id := _id; Job.title := Job.title job;
     Job.company := Job.company job; Job.location := Job.location job;
     Job.salary := Job.salary job; Job.type := Job.type job;
     Job.description := Job.description job;
     Job.requirements := Job.requirements job;
     Job.companyWebsite := Job.companyWebsite job;
     Job.skills := Job.skills job; Job.postedBy := Job.postedBy job;
     Job.postedAt := postedAt; Job.__v := Job.__v job |}.

(** [app.post('/api/seed-jobs', ...)]; [new_doc i] is the id and the date the
    [i]-th sample is stored with. *)
Definition seed_jobs (new_doc : nat → list N * Z) : M Reply :=
  λ st,
  let insertedJobs :=
    imap (λ i job, stamped (new_doc i).1 (new_doc i).2 job) sampleJobs in
  ({| status := 200; success := true;
      message := Some (js "Sample jobs seeded successfully");
      payload := Count (length insertedJobs) |},
   {| users := users st; jobs := insertedJobs; resumes := resumes st;
      applications := applications st |}).

(** The store as the handler of the recommendations sees it: the profiles by
    user id, and the jobs. *)
Definition view (st : Store) : Db.Store :=
  {| Db.users := list_to_map ((λ u, (user_id u, profile u)) <$> users st);
     Db.jobs := jobs st; Db.queries := [] |}.

(** [app.get('/api/job-recommendations', ...)] on this store; the handler
    only reads. *)
Definition job_recommendations `{!Js.Unicode} (req_user_id : list N)
  : M Response :=
  λ st, ((job_recommendations req_user_id (view st)).1, st).

End Portal.

(** The ends of a string that are not empty, the longest first. *)
Fixpoint nonempty_suffixes (s : list N) : list (list N) :=
  match s with
  | [] => []
  | _ :: s' => s :: nonempty_suffixes s'
  end.

(** [a] meets none of its ends at the front of [s], and [b] none of the ends
    of [s] at its own front: [s] cannot lie across the seam of [a] and [b]
    with a part in each. *)
Definition no_end_starts (a s : list N) : bool :=
  forallb (λ s1, negb (Js.startsWith s s1)) (nonempty_suffixes a).

Definition no_start_ends (b s : list N) : bool :=
  forallb (λ s2, negb (Js.startsWith b s2)) (nonempty_suffixes s).

(** A stand-in for the two libraries, to run the account routes on examples;
    with the salts [s1] and [s2] a password compares true with its own
    hash, as with the libraries. *)
Definition example_crypto : Crypto :=
  {| bcrypt_hash password salt := salt ++ password;
     bcrypt_compare password hash :=
       bool_decide (hash = js "s1" ++ password) ||
       bool_decide (hash = js "s2" ++ password);
     jwt_sign id email role now := Some (id ++ email) |}.

(** The same stand-in without a secret: no token can be signed. *)
Definition example_crypto_no_secret : Crypto :=
  {| bcrypt_hash := @bcrypt_hash example_crypto;
     bcrypt_compare := @bcrypt_compare example_crypto;
     jwt_sign id email role now := None |}.

(** An example store with one account and the sample jobs. *)
Definition example_store : Portal.Store :=
  {| Portal.users :=
       [ {| Portal.user_id := user_1; Portal.name := js "Ann";
            Portal.email := js "ann@example.com";
            Portal.password := js "s1secret";
            Portal.role := js "seeker";
            Portal.profile := {| User.parsedResume := None |} |} ];
     Portal.jobs := sampleJobs; Portal.resumes := [];
     Portal.applications := [] |}.

(** A stand-in for the cast of the store: an id is a string of 24
    hexadecimal digits, kept with its letters in lower case. *)
Definition is_hex (u : N) : bool :=
  ((48 <=? u) && (u <=? 57) || (65 <=? u) && (u <=? 70)
   || (97 <=? u) && (u <=? 102))%N.

Definition example_mongoose : Mongoose :=
  {| castObjectId s :=
       if (length s =? 24)%nat && forallb is_hex s
       then Some (Js.lower_ascii <$> s) else None |}.

#[global] Existing Instance example_mongoose.
(** * Properties *)

(** ** Strings *)

Section Strings.
Import Js.
Context {engine : Unicode}.

Lemma startsWith_append (s search : list N) :
  startsWith s search = true ↔ ∃ post, s = search ++ post.
Proof.
  revert s. induction search as [|a search IH]; intros s; simpl.
  - split; [intros _; exists s; reflexivity | intros _; reflexivity].
  - destruct s as [|b s].
    + split; [done | intros [post Hp]; discriminate].
    + destruct (decide (a = b)) as [->|Hne].
      * rewrite IH. split; intros [post Hp]; exists post; congruence.
      * split; [done | intros [post Hp]]. congruence.
Qed.

Lemma includes_append (s search : list N) :
  includes s search = true ↔ ∃ pre post, s = pre ++ search ++ post.
Proof.
  induction s as [|c s IH]; simpl.
  - destruct (startsWith [] search) eqn:E.
    + apply startsWith_append in E as [post Hp]. split; [|done].
      intros _. by exists [], post.
    + split; [done|]. intros (pre & post & Hp).
      destruct pre; [|discriminate].
      assert (startsWith [] search = true) as E'
        by (apply startsWith_append; eauto).
      congruence.
  - destruct (startsWith (c :: s) search) eqn:E.
    + apply startsWith_append in E as [post Hp]. split; [|done].
      intros _. by exists [], post.
    + rewrite IH. split.
      * intros (pre & post & ->). by exists (c :: pre), post.
      * intros (pre & post & Hp). destruct pre as [|c' pre].
        -- assert (startsWith (c :: s) search = true) as E'
             by (apply startsWith_append; eauto).
           congruence.
        -- injection Hp as -> ->. eauto.
Qed.

Lemma includes_occurs (skill text : list N) :
  includes (toLowerCase text) (toLowerCase skill) = true ↔
  occurs_ignoring_case skill text.
Proof. apply includes_append. Qed.

Lemma includes_first_unit (s search : list N) (c : N) (rest : list N) :
  search = c :: rest → includes s search = true → c ∈ s.
Proof.
  intros -> (pre & post & ->)%includes_append.
  rewrite elem_of_app. right. apply list_elem_of_here.
Qed.

(** The fold on ASCII, on both sides of a space, and on white space. *)
Lemma toLowerCase_ascii (s : list N) :
  is_ascii s = true → toLowerCase s = lower_ascii <$> s.
Proof. intros H. unfold toLowerCase, lower_with. by rewrite H. Qed.

Lemma toLowerCase_space (a b : list N) :
  toLowerCase (a ++ 32%N :: b) = toLowerCase a ++ 32%N :: toLowerCase b.
Proof. apply lowercase_space. Qed.

Lemma toLowerCase_whitespace (s : list N) :
  whitespace_only s = true → toLowerCase s = s.
Proof. apply lowercase_whitespace. Qed.

Lemma toLowerCase_stretch (pre s post w : list N) :
  is_ascii w = true → includes (toLowerCase s) w = true →
  includes (toLowerCase (pre ++ s ++ post)) w = true.
Proof. apply lowercase_stretch. Qed.

Lemma append_nil (s : list N) : [] ++ s = s.
Proof. reflexivity. Qed.

Lemma append_cons (c : N) (a b : list N) : (c :: a) ++ b = c :: (a ++ b).
Proof. reflexivity. Qed.

Lemma append_assoc (a b c : list N) : (a ++ b) ++ c = a ++ (b ++ c).
Proof. by rewrite <- app_assoc. Qed.

Lemma append_empty_r (s : list N) : s ++ [] = s.
Proof. apply app_nil_r. Qed.

Lemma is_ascii_app (a b : list N) :
  is_ascii (a ++ b) = is_ascii a && is_ascii b.
Proof. apply forallb_app. Qed.

(** The fold of ASCII tells two units apart exactly when they are not the
    same letter. *)
Lemma lower_ascii_same_letter (c d : N) :
  lower_ascii c = lower_ascii d ↔ same_letter c d.
Proof.
  unfold lower_ascii, same_letter.
  destruct (N.leb_spec 65 c), (N.leb_spec c 90),
           (N.leb_spec 65 d), (N.leb_spec d 90); cbn [andb]; lia.
Qed.

Lemma lower_ascii_spelling (u v : list N) :
  lower_ascii <$> u = lower_ascii <$> v ↔ Forall2 same_letter u v.
Proof.
  revert v. induction u as [|c u IH]; intros [|d v].
  - split; [constructor | done].
  - split; [discriminate | inversion 1].
  - split; [discriminate | inversion 1].
  - rewrite Forall2_cons, <- IH, <- lower_ascii_same_letter, !fmap_cons.
    split; [by intros [= -> ->] | by intros [-> ->]].
Qed.

Lemma occurs_spelled (skill text : list N) :
  is_ascii skill = true → is_ascii text = true →
  occurs_ignoring_case skill text ↔ spelled_in skill text.
Proof.
  intros Hs Ht. unfold occurs_ignoring_case, spelled_in.
  rewrite !toLowerCase_ascii by done. split.
  - intros (pre & post & H).
    apply fmap_app_inv in H as (x & y & _ & H & ->). symmetry in H.
    apply fmap_app_inv in H as (u & z & Hu & _ & ->).
    exists x, u, z. split; [done|]. by apply lower_ascii_spelling.
  - intros (pre & u & post & -> & Hu%lower_ascii_spelling).
    exists (lower_ascii <$> pre), (lower_ascii <$> post).
    by rewrite !fmap_app, Hu.
Qed.

End Strings.

(** ** Numbers: rounding to a double keeps the order *)

Section NumberFacts.
Import Number.
Local Open Scope Q_scope.

Lemma two_pow_pos (k : Z) : 0 < 2 ^ k.
Proof. apply Qpower_0_lt. reflexivity. Qed.

Lemma two_pow_add (a b : Z) : 2 ^ (a + b) == 2 ^ a * 2 ^ b.
Proof. apply Qpower_plus. discriminate. Qed.

Lemma two_pow_succ (k : Z) : 2 ^ (k + 1) == 2 * 2 ^ k.
Proof. rewrite two_pow_add. change (2 ^ 1) with 2. ring. Qed.

Lemma two_pow_pred (k : Z) : 2 * 2 ^ (k - 1) == 2 ^ k.
Proof. rewrite <- two_pow_succ. by replace (k - 1 + 1)%Z with k by lia. Qed.

Lemma two_pow_le (a b : Z) : (a <= b)%Z -> 2 ^ a <= 2 ^ b.
Proof. intros H. apply Qpower_le_compat_l; [done | discriminate]. Qed.

Lemma two_pow_lt_inv (a b : Z) : 2 ^ a < 2 ^ b -> (a < b)%Z.
Proof. intros H. eapply Qpower_lt_compat_l_inv; [exact H | reflexivity]. Qed.

Lemma two_pow_inject (a : Z) : (0 <= a)%Z -> inject_Z (2 ^ a) == 2 ^ a.
Proof. intros H. by rewrite Zpower_Qpower. Qed.

Lemma ilog2_bounds (q : Q) :
  0 < q -> 2 ^ ilog2 q <= q /\ q < 2 ^ (ilog2 q + 1).
Proof.
  intros Hq. unfold ilog2.
  set (n := Qnum q). set (d := Zpos (Qden q)).
  assert (Hn : (0 < n)%Z) by (destruct q as [qn qd]; unfold Qlt in Hq; simpl in *; lia).
  assert (Hd : (0 < d)%Z) by done.
  destruct (Z.log2_spec n Hn) as [Hn1 Hn2].
  destruct (Z.log2_spec d Hd) as [Hd1 Hd2].
  pose proof (Z.log2_nonneg n) as Ha. pose proof (Z.log2_nonneg d) as Hb.
  set (a := Z.log2 n) in *. set (b := Z.log2 d) in *.
  assert (HA1 : 2 ^ a <= inject_Z n)
    by (rewrite <- two_pow_inject by done; by rewrite <- Zle_Qle).
  assert (HA2 : inject_Z n < 2 * 2 ^ a).
  { rewrite <- two_pow_succ, <- two_pow_inject by lia. rewrite <- Zlt_Qlt.
    by rewrite <- Z.add_1_r in Hn2. }
  assert (HB1 : 2 ^ b <= inject_Z d)
    by (rewrite <- two_pow_inject by done; by rewrite <- Zle_Qle).
  assert (HB2 : inject_Z d < 2 * 2 ^ b).
  { rewrite <- two_pow_succ, <- two_pow_inject by lia. rewrite <- Zlt_Qlt.
    by rewrite <- Z.add_1_r in Hd2. }
  assert (Hk : 2 ^ (a - b) * 2 ^ b == 2 ^ a).
  { rewrite <- two_pow_add. by replace (a - b + b)%Z with a by lia. }
  assert (Hqd : q * inject_Z d == inject_Z n).
  { subst n d. destruct q as [qn qd]. simpl. unfold Qeq, Qmult, inject_Z. simpl. lia. }
  pose proof (two_pow_pos a) as HA. pose proof (two_pow_pos b) as HB.
  pose proof (two_pow_pos (a - b)) as HP.
  assert (HD : 0 < inject_Z d) by (change (inject_Z 0 < inject_Z d); by rewrite <- Zlt_Qlt).
  destruct (Qle_bool (2 ^ (a - b)) q) eqn:E.
  - apply Qle_bool_iff in E. split; [done|].
    rewrite two_pow_succ.
    apply (Qmult_lt_r _ _ (inject_Z d)); [done|]. rewrite Hqd.
    eapply Qlt_le_trans; [exact HA2|]. rewrite <- Hk.
    rewrite <- !Qmult_assoc. apply Qmult_le_l; [reflexivity|].
    apply Qmult_le_l; done.
  - assert (E' : q < 2 ^ (a - b)).
    { apply Qnot_le_lt. intros H%Qle_bool_iff. congruence. }
    split; [|by replace (a - b - 1 + 1)%Z with (a - b)%Z by lia].
    apply (Qmult_le_l _ _ 2); [reflexivity|]. rewrite two_pow_pred.
    apply (Qmult_le_r _ _ (inject_Z d)); [done|].
    rewrite <- Qmult_assoc, Hqd.
    apply Qle_trans with (2 ^ (a - b) * (2 * 2 ^ b)).
    + apply Qmult_le_l; [done|]. by apply Qlt_le_weak.
    + assert (2 ^ (a - b) * (2 * 2 ^ b) == 2 * (2 ^ (a - b) * 2 ^ b)) as -> by ring.
      rewrite Hk. apply Qmult_le_l; [reflexivity | done].
Qed.

Lemma ilog2_unique (q : Q) (k : Z) :
  2 ^ k <= q -> q < 2 ^ (k + 1) -> ilog2 q = k.
Proof.
  intros H1 H2.
  assert (Hq : 0 < q) by (eapply Qlt_le_trans; [apply two_pow_pos | exact H1]).
  destruct (ilog2_bounds q Hq) as [B1 B2].
  assert (ilog2 q < k + 1)%Z
    by (apply two_pow_lt_inv; eapply Qle_lt_trans; eassumption).
  assert (k < ilog2 q + 1)%Z
    by (apply two_pow_lt_inv; eapply Qle_lt_trans; eassumption).
  lia.
Qed.

Lemma ilog2_mono (x y : Q) : 0 < x -> x <= y -> (ilog2 x <= ilog2 y)%Z.
Proof.
  intros Hx Hxy.
  assert (Hy : 0 < y) by (eapply Qlt_le_trans; eassumption).
  destruct (ilog2_bounds x Hx) as [X1 _], (ilog2_bounds y Hy) as [_ Y2].
  assert (ilog2 x < ilog2 y + 1)%Z; [|lia].
  apply two_pow_lt_inv. eapply Qle_lt_trans; [exact X1|].
  eapply Qle_lt_trans; eassumption.
Qed.

Lemma ilog2_comp (x y : Q) : 0 < x -> x == y -> ilog2 x = ilog2 y.
Proof.
  intros Hx Hxy. destruct (ilog2_bounds x Hx) as [X1 X2].
  symmetry. apply ilog2_unique; by rewrite <- Hxy.
Qed.

Lemma roundHalfEven_comp (x y : Q) :
  x == y -> roundHalfEven x = roundHalfEven y.
Proof.
  intros H. unfold roundHalfEven. rewrite (Qfloor_comp _ _ H).
  assert (Qcompare (x - inject_Z (Qfloor y)) (1 # 2) =
          Qcompare (y - inject_Z (Qfloor y)) (1 # 2)) as ->; [|done].
  apply Qcompare_comp; [|reflexivity]. apply Qplus_comp; [exact H|reflexivity].
Qed.

Lemma roundHalfEven_Z (z : Z) : roundHalfEven (inject_Z z) = z.
Proof.
  unfold roundHalfEven. rewrite Qfloor_Z.
  assert (inject_Z z - inject_Z z == 0) as -> by ring. done.
Qed.

Lemma roundHalfEven_floor (x : Q) :
  (Qfloor x <= roundHalfEven x <= Qfloor x + 1)%Z.
Proof.
  unfold roundHalfEven.
  destruct (Qcompare _ _); [destruct (Z.even _)|..]; lia.
Qed.

Lemma roundHalfEven_mono (x y : Q) :
  x <= y -> (roundHalfEven x <= roundHalfEven y)%Z.
Proof.
  intros Hxy. pose proof (Qfloor_resp_le _ _ Hxy) as Hf.
  pose proof (roundHalfEven_floor x). pose proof (roundHalfEven_floor y).
  destruct (decide (Qfloor x = Qfloor y)) as [E|NE]; [|lia].
  unfold roundHalfEven in *. rewrite <- E in *.
  destruct (Qcompare_spec (x - inject_Z (Qfloor x)) (1 # 2)) as [Hx|Hx|Hx];
  destruct (Qcompare_spec (y - inject_Z (Qfloor x)) (1 # 2)) as [Hy|Hy|Hy];
    try destruct (Z.even _); try lia; lra.
Qed.

Lemma scaled_bounds (x : Q) :
  0 < x ->
  inject_Z (2 ^ 52) <= x * 2 ^ (- (ilog2 x - 52)) /\
  x * 2 ^ (- (ilog2 x - 52)) <= inject_Z (2 ^ 53).
Proof.
  intros Hx. destruct (ilog2_bounds x Hx) as [H1 H2].
  pose proof (two_pow_pos (- (ilog2 x - 52))) as Hp.
  rewrite !two_pow_inject by lia. split.
  - replace 52%Z with (ilog2 x + - (ilog2 x - 52))%Z at 1 by lia.
    rewrite two_pow_add. by apply Qmult_le_r.
  - replace 53%Z with (ilog2 x + 1 + - (ilog2 x - 52))%Z at 1 by lia.
    rewrite two_pow_add. apply Qmult_le_r; [done | by apply Qlt_le_weak].
Qed.

Lemma round53_bounds (x : Q) :
  0 < x -> 2 ^ ilog2 x <= round53 x /\ round53 x <= 2 ^ (ilog2 x + 1).
Proof.
  intros Hx. destruct (scaled_bounds x Hx) as [H1 H2].
  apply roundHalfEven_mono in H1, H2. rewrite roundHalfEven_Z in H1, H2.
  unfold round53. set (e := (ilog2 x - 52)%Z) in *.
  pose proof (two_pow_pos e) as Hp.
  rewrite Zle_Qle, two_pow_inject in H1, H2 by lia. split.
  - replace (ilog2 x) with (52 + e)%Z at 1 by lia.
    rewrite two_pow_add. apply Qmult_le_r; done.
  - replace (ilog2 x + 1)%Z with (53 + e)%Z by lia.
    rewrite two_pow_add. apply Qmult_le_r; done.
Qed.

Lemma round53_pos (x : Q) : 0 < x -> 0 < round53 x.
Proof.
  intros Hx. eapply Qlt_le_trans; [apply (two_pow_pos (ilog2 x))|].
  by apply round53_bounds.
Qed.

Lemma round53_mono (x y : Q) : 0 < x -> x <= y -> round53 x <= round53 y.
Proof.
  intros Hx Hxy.
  assert (Hy : 0 < y) by (eapply Qlt_le_trans; eassumption).
  pose proof (ilog2_mono x y Hx Hxy) as Hl.
  destruct (decide (ilog2 x = ilog2 y)) as [E|NE].
  - unfold round53. rewrite <- E. set (e := (ilog2 x - 52)%Z).
    apply Qmult_le_compat_r; [|apply Qlt_le_weak, two_pow_pos].
    rewrite <- Zle_Qle. apply roundHalfEven_mono.
    apply Qmult_le_compat_r; [done | apply Qlt_le_weak, two_pow_pos].
  - eapply Qle_trans; [apply round53_bounds, Hx|].
    eapply Qle_trans; [|apply round53_bounds, Hy].
    apply two_pow_le. lia.
Qed.

Lemma round53_comp (x y : Q) : 0 < x -> x == y -> round53 x == round53 y.
Proof.
  intros Hx Hxy. unfold round53. rewrite <- (ilog2_comp x y Hx Hxy).
  rewrite (roundHalfEven_comp (x * _) (y * 2 ^ (- (ilog2 x - 52)))); [done|].
  apply Qmult_comp; [exact Hxy | reflexivity].
Qed.

Lemma Qnum_pos (x : Q) : 0 < x <-> (0 < Qnum x)%Z.
Proof. unfold Qlt. simpl. lia. Qed.

Lemma Qnum_neg (x : Q) : x < 0 <-> (Qnum x < 0)%Z.
Proof. unfold Qlt. simpl. lia. Qed.

Lemma Qnum_zero (x : Q) : x == 0 <-> Qnum x = 0%Z.
Proof. unfold Qeq. simpl. lia. Qed.

(** What [binary64] is on each side of zero. *)
Lemma binary64_pos (x : Q) : 0 < x -> binary64 x == round53 x.
Proof.
  intros H%Qnum_pos. unfold binary64.
  destruct (Qnum x); try lia. apply Qred_correct.
Qed.

Lemma binary64_neg (x : Q) : x < 0 -> binary64 x == - round53 (- x).
Proof.
  intros H%Qnum_neg. unfold binary64.
  destruct (Qnum x); try lia. apply Qred_correct.
Qed.

Lemma binary64_zero (x : Q) : x == 0 -> binary64 x = 0.
Proof. intros H%Qnum_zero. unfold binary64. by rewrite H. Qed.

Lemma binary64_mono (x y : Q) : x <= y -> binary64 x <= binary64 y.
Proof.
  intros Hxy.
  destruct (Qlt_le_dec 0 x) as [Hx|Hx].
  - rewrite !binary64_pos by (try done; eapply Qlt_le_trans; eassumption).
    by apply round53_mono.
  - destruct (Qlt_le_dec x 0) as [Hx'|Hx'].
    + rewrite (binary64_neg x) by done.
      pose proof (round53_pos (- x)) as Hr.
      destruct (Qlt_le_dec 0 y) as [Hy|Hy].
      * rewrite binary64_pos by done. pose proof (round53_pos y Hy). lra.
      * destruct (Qlt_le_dec y 0) as [Hy'|Hy'].
        -- rewrite binary64_neg by done.
           pose proof (round53_mono (- y) (- x)). lra.
        -- rewrite (binary64_zero y) by lra. lra.
    + rewrite (binary64_zero x) by lra.
      destruct (Qlt_le_dec 0 y) as [Hy|Hy].
      * rewrite binary64_pos by done. pose proof (round53_pos y Hy). lra.
      * rewrite (binary64_zero y) by lra. lra.
Qed.

Lemma binary64_comp (x y : Q) : x == y -> binary64 x = binary64 y.
Proof.
  intros Hxy. unfold binary64.
  destruct (Qnum x) eqn:Ex.
  - apply Qnum_zero in Ex. rewrite Hxy in Ex. apply Qnum_zero in Ex.
    by rewrite Ex.
  - assert (Hx : 0 < x) by (apply Qnum_pos; lia).
    assert (Hy : (0 < Qnum y)%Z) by (apply Qnum_pos; by rewrite <- Hxy).
    destruct (Qnum y); try lia. apply Qred_complete. by apply round53_comp.
  - assert (Hx : x < 0) by (apply Qnum_neg; lia).
    assert (Hy : (Qnum y < 0)%Z) by (apply Qnum_neg; by rewrite <- Hxy).
    destruct (Qnum y); try lia. apply Qred_complete.
    apply Qopp_comp, round53_comp; [lra | by rewrite Hxy].
Qed.

Lemma binary64_sign_pos (x : Q) : 0 < x -> 0 < binary64 x.
Proof. intros H. rewrite binary64_pos by done. by apply round53_pos. Qed.

Lemma binary64_sign_neg (x : Q) : x < 0 -> binary64 x < 0.
Proof.
  intros H. rewrite binary64_neg by done.
  pose proof (round53_pos (- x)). lra.
Qed.

Lemma binary64_0 : binary64 0 = 0.
Proof. reflexivity. Qed.

Lemma binary64_1 : binary64 1 = 1.
Proof. vm_compute. reflexivity. Qed.

Lemma binary64_unit_interval (x : Q) :
  0 <= x -> x <= 1 -> 0 <= binary64 x /\ binary64 x <= 1.
Proof.
  intros H0 H1. split.
  - rewrite <- binary64_0. by apply binary64_mono.
  - rewrite <- binary64_1. by apply binary64_mono.
Qed.

(** Below one by at least 2^-32, a quotient does not round up to one. *)
Lemma binary64_below_1 (x : Q) :
  x <= 1 - (1 # 4294967296) -> binary64 x < 1.
Proof.
  intros H%binary64_mono. eapply Qle_lt_trans; [exact H|].
  vm_compute. reflexivity.
Qed.

Lemma gt_lt (x y : Q) : gt x y = true <-> y < x.
Proof.
  unfold gt. rewrite negb_true_iff. split.
  - intros H. apply Qnot_le_lt. intros H'%Qle_bool_iff. congruence.
  - intros H. destruct (Qle_bool x y) eqn:E; [|done].
    apply Qle_bool_iff in E. lra.
Qed.

Lemma sub_nonpos (x y : Q) : sub x y <= 0 <-> x <= y.
Proof.
  unfold sub. split.
  - intros H. destruct (Qlt_le_dec y x) as [Hlt|]; [|done].
    pose proof (binary64_sign_pos (x - y)). lra.
  - intros H. rewrite <- binary64_0. apply binary64_mono. lra.
Qed.





End NumberFacts.

(** ** The skill extractor *)

Section Extractor.
Context {engine : Js.Unicode}.

Lemma commonSkills_ascii :
  Forall (λ skill, Js.is_ascii skill = true) commonSkills.
Proof. repeat constructor. Qed.

Lemma commonSkills_start_visibly :
  Forall (λ skill, starts_visibly skill = true) commonSkills.
Proof. repeat constructor. Qed.

Lemma commonSkills_NoDup : NoDup commonSkills.
Proof. apply (bool_decide_unpack _). vm_compute. exact I. Qed.

Lemma extract_whitespace (text : list N) :
  Js.whitespace_only text = true → extractSkillsFromText text = [].
Proof.
  intros Hws. unfold extractSkillsFromText.
  rewrite (toLowerCase_whitespace text Hws).
  pose proof commonSkills_start_visibly as Hv.
  induction Hv as [|skill l Hskill _ IH]; [done|].
  rewrite filter_cons_False; [exact IH|].
  intros Hinc%Is_true_true. unfold starts_visibly in Hskill.
  destruct (Js.toLowerCase skill) as [|c rest] eqn:E; [discriminate|].
  eapply includes_first_unit in Hinc; [|reflexivity].
  unfold Js.whitespace_only in Hws.
  rewrite forallb_forall in Hws. apply list_elem_of_In in Hinc.
  rewrite (Hws _ Hinc) in Hskill. discriminate.
Qed.

(** C1: [extractSkillsFromText] returns exactly the entries of the vocabulary
    that occur in the text when case is ignored, that is, that occur in the
    lowercase form of the text once folded themselves.  Each comes in its
    canonical spelling (it is an element of [commonSkills]), in the order of
    the vocabulary, none twice; a text that is empty or all white space gives
    the empty list.  On a text of ASCII units the entries returned are those
    some stretch of the text spells letter by letter, whatever the case of
    each letter.  (Beyond ASCII the fold of the engine can make an entry
    appear that no stretch spells, as [U+0130] folds to an [i] and a dot
    above; the first part speaks of the folded text for that reason.) *)
Theorem extractSkills_exact (text : list N) :
  (∀ skill, skill ∈ extractSkillsFromText text ↔
            skill ∈ commonSkills ∧ occurs_ignoring_case skill text) ∧
  sublist (extractSkillsFromText text) commonSkills ∧
  NoDup (extractSkillsFromText text) ∧
  (Js.whitespace_only text = true → extractSkillsFromText text = []) ∧
  (Js.is_ascii text = true →
   ∀ skill, skill ∈ extractSkillsFromText text ↔
            skill ∈ commonSkills ∧ spelled_in skill text).
Proof.
  assert (∀ skill, skill ∈ extractSkillsFromText text ↔
            skill ∈ commonSkills ∧ occurs_ignoring_case skill text) as Hiff.
  { intros skill. unfold extractSkillsFromText.
    rewrite list_elem_of_filter, Is_true_true, includes_occurs. tauto. }
  split; [exact Hiff|]. split; [|split; [|split]].
  - apply sublist_filter.
  - apply NoDup_filter, commonSkills_NoDup.
  - apply extract_whitespace.
  - intros Ht skill. rewrite Hiff. split; intros [Hin H]; (split; [done|]).
    + apply occurs_spelled in H; [done | | done].
      by apply (proj1 (Forall_forall _ _) commonSkills_ascii).
    + apply occurs_spelled; [| done..].
      by apply (proj1 (Forall_forall _ _) commonSkills_ascii).
Qed.

(** C8: matching is plain containment, with no check of word boundaries: a
    text that is the one word JavaScript yields JavaScript and Java, and the
    one word PostgreSQL yields SQL and PostgreSQL, though neither Java nor SQL
    stands there as a word. *)
Theorem extract_inside_longer_word :
  extractSkillsFromText (js "JavaScript") = js <$> ["JavaScript"; "Java"] ∧
  extractSkillsFromText (js "PostgreSQL") = js <$> ["SQL"; "PostgreSQL"].
Proof. split; vm_compute; reflexivity. Qed.

End Extractor.

(** Two units read as the same letter. *)
Ltac same_letters :=
  match goal with
  | |- Forall2 same_letter ?u ?v =>
      let u' := eval vm_compute in u in
      let v' := eval vm_compute in v in
      change (Forall2 same_letter u' v')
  end;
  repeat (constructor;
          [first [ by left
                 | right; left; repeat split; (reflexivity || lia)
                 | right; right; repeat split; (reflexivity || lia) ] |]);
  try constructor.

(** Beyond ASCII, with the stand-in for the engine, which folds the two
    code points as the tables do: the Kelvin sign reads as a [k], and the
    dotted capital I makes REST API appear although no stretch of the text
    spells it. *)
Example extract_kelvin_sign :
  extractSkillsFromText (js "DOC" ++ [8490%N] ++ js "ER") = [js "Docker"].
Proof. vm_compute. reflexivity. Qed.

Example extract_dotted_capital_I :
  extractSkillsFromText (js "REST AP" ++ [304%N]) = [js "REST API"] ∧
  ¬ spelled_in (js "REST API") (js "REST AP" ++ [304%N]).
Proof.
  split; [vm_compute; reflexivity|].
  intros (pre & u & post & E & F).
  pose proof (Forall2_length _ _ _ F) as L.
  pose proof (f_equal length E) as L'. rewrite !length_app in L'.
  change (length (js "REST AP" ++ [304%N])) with 8%nat in L'.
  change (length (js "REST API")) with 8%nat in L.
  destruct pre; [|simpl in L'; lia]. destruct post; [|simpl in L'; lia].
  rewrite app_nil_r in E. simpl in E. subst u.
  assert (same_letter 304 73) as H
    by (eapply (Forall2_lookup_lr _ _ _ 7%nat); [exact F | reflexivity..]).
  unfold same_letter in H. lia.
Qed.

Lemma extractSkills_exact_witness :
  js "React" ∈ extractSkillsFromText (js "We build with REACT and node.JS") ∧
  js "Node.js" ∈ extractSkillsFromText (js "We build with REACT and node.JS") ∧
  extractSkillsFromText [32; 9; 160; 10]%N = [].
Proof.
  destruct (extractSkills_exact (js "We build with REACT and node.JS"))
    as (_ & _ & _ & _ & Hspelled).
  split; [|split].
  - apply Hspelled; [reflexivity|]. split.
    + apply (bool_decide_unpack _). vm_compute. exact I.
    + exists (js "We build with "), (js "REACT"), (js " and node.JS").
      split; [reflexivity|]. same_letters.
  - apply Hspelled; [reflexivity|]. split.
    + apply (bool_decide_unpack _). vm_compute. exact I.
    + exists (js "We build with REACT and "), (js "node.JS"), [].
      split; [reflexivity|]. same_letters.
  - apply (extractSkills_exact [32; 9; 160; 10]%N). reflexivity.
Defined.

(** ** The match scorer *)

Section Scorer.
Context {engine : Js.Unicode}.
Local Open Scope Q_scope.

Lemma of_nat_ratio_unit (m n : nat) :
  (m ≤ n)%nat → (0 < n)%nat →
  0 <= Number.of_nat m / Number.of_nat n ∧
  Number.of_nat m / Number.of_nat n <= 1.
Proof.
  intros Hmn Hn. unfold Number.of_nat.
  assert (0 < inject_Z (Z.of_nat n))
    by (change 0 with (inject_Z 0); rewrite <- Zlt_Qlt; lia).
  assert (0 <= inject_Z (Z.of_nat m))
    by (change 0 with (inject_Z 0); rewrite <- Zle_Qle; lia).
  assert (inject_Z (Z.of_nat m) <= inject_Z (Z.of_nat n))
    by (rewrite <- Zle_Qle; lia).
  split.
  - apply Qle_shift_div_l; [done | lra].
  - apply Qle_shift_div_r; [done | lra].
Qed.

Lemma of_nat_ratio_one (n : nat) :
  (0 < n)%nat → Number.of_nat n / Number.of_nat n == 1.
Proof.
  intros Hn. unfold Number.of_nat. apply Qmult_inv_r.
  intros H. assert (0 < inject_Z (Z.of_nat n))
    by (change 0 with (inject_Z 0); rewrite <- Zlt_Qlt; lia).
  lra.
Qed.

Lemma of_nat_ratio_below (m n : nat) :
  (m < n)%nat → (Z.of_nat n < 2 ^ 32)%Z →
  Number.of_nat m / Number.of_nat n <= 1 - (1 # 4294967296).
Proof.
  intros Hmn Hn. unfold Number.of_nat.
  assert (0 < inject_Z (Z.of_nat n))
    by (change 0 with (inject_Z 0); rewrite <- Zlt_Qlt; lia).
  assert (inject_Z (Z.of_nat m) <= inject_Z (Z.of_nat n) - 1).
  { change 1 with (inject_Z 1). unfold Qminus.
    rewrite <- inject_Z_opp, <- inject_Z_plus, <- Zle_Qle. lia. }
  assert (inject_Z (Z.of_nat n) <= 4294967296).
  { change 4294967296 with (inject_Z 4294967296). rewrite <- Zle_Qle. lia. }
  apply Qle_shift_div_r; [done | lra].
Qed.

Lemma filter_fmap_length {A B} (f : A → B) (P : B → Prop)
    `{∀ b, Decision (P b)} (l : list A) :
  length (filter P (f <$> l)) = length (filter (λ a, P (f a)) l).
Proof.
  induction l as [|a l IH]; [done|]. rewrite fmap_cons, !filter_cons.
  destruct (decide (P (f a))); simpl; by rewrite IH.
Qed.

(** The scorer, where neither array is empty. *)
Lemma score_unfold (userSkills jobSkills : list (list N)) :
  userSkills ≠ [] → jobSkills ≠ [] →
  calculateMatchScore userSkills jobSkills =
  Number.div
    (Number.of_nat
       (length (filter (λ a, Js.toLowerCase a ∈ Js.toLowerCase <$> jobSkills)
                       userSkills)))
    (Number.of_nat (Nat.max (length userSkills) (length jobSkills))).
Proof.
  intros Hu Hj. unfold calculateMatchScore.
  destruct userSkills, jobSkills; try done. simpl orb. cbv iota.
  by rewrite filter_fmap_length.
Qed.

Lemma score_empty_l (jobSkills : list (list N)) :
  calculateMatchScore [] jobSkills = 0.
Proof. done. Qed.

Lemma score_empty_r (userSkills : list (list N)) :
  calculateMatchScore userSkills [] = 0.
Proof. unfold calculateMatchScore. by rewrite orb_true_r. Qed.

Lemma score_unit_interval (userSkills jobSkills : list (list N)) :
  0 <= calculateMatchScore userSkills jobSkills ∧
  calculateMatchScore userSkills jobSkills <= 1.
Proof.
  destruct (decide (userSkills = [])) as [->|Hu];
    [rewrite score_empty_l; lra|].
  destruct (decide (jobSkills = [])) as [->|Hj];
    [rewrite score_empty_r; lra|].
  rewrite score_unfold by done. unfold Number.div.
  apply binary64_unit_interval; apply of_nat_ratio_unit.
  - etrans; [apply length_filter|]. lia.
  - destruct userSkills; [done | simpl; lia].
  - etrans; [apply length_filter|]. lia.
  - destruct userSkills; [done | simpl; lia].
Qed.

Lemma filter_all_length {A} (P : A → Prop) `{∀ a, Decision (P a)}
    (l : list A) :
  length (filter P l) = length l ↔ Forall P l.
Proof.
  induction l as [|a l IH]; [by split|]. rewrite filter_cons.
  destruct (decide (P a)) as [Ha|Ha]; simpl.
  - rewrite Forall_cons. split; [intros ?; split; [done|apply IH; lia]|].
    intros [_ ?%IH]. lia.
  - pose proof (length_filter P l). split; [lia|].
    by intros [? _]%Forall_cons.
Qed.

Lemma score_self (A : list (list N)) : A ≠ [] → calculateMatchScore A A = 1.
Proof.
  intros HA. rewrite score_unfold by done.
  assert (length (filter (λ a, Js.toLowerCase a ∈ Js.toLowerCase <$> A) A)
          = length A) as ->.
  { apply filter_all_length, Forall_forall. intros a Ha.
    by apply list_elem_of_fmap_2. }
  rewrite Nat.max_id. unfold Number.div.
  rewrite (binary64_comp _ 1); [apply binary64_1|].
  apply of_nat_ratio_one. destruct A; [done | simpl; lia].
Qed.

(** A score of one: every entry of the first array matches, and the second
    array is no longer than the first. *)
Lemma score_one_inv (userSkills jobSkills : list (list N)) :
  Js.array userSkills → Js.array jobSkills →
  calculateMatchScore userSkills jobSkills == 1 →
  userSkills ≠ [] ∧ jobSkills ≠ [] ∧
  (length jobSkills ≤ length userSkills)%nat ∧
  Forall (λ a, Js.toLowerCase a ∈ Js.toLowerCase <$> jobSkills) userSkills.
Proof.
  unfold Js.array. intros Lu Lj H1.
  destruct (decide (userSkills = [])) as [->|Hu];
    [rewrite score_empty_l in H1; lra|].
  destruct (decide (jobSkills = [])) as [->|Hj];
    [rewrite score_empty_r in H1; lra|].
  rewrite score_unfold in H1 by done. unfold Number.div in H1.
  set (m := length (filter _ userSkills)) in *.
  set (n := Nat.max (length userSkills) (length jobSkills)) in *.
  assert (Hm : (m ≤ length userSkills)%nat) by apply length_filter.
  destruct (decide (m < n)%nat) as [Hlt|Hge].
  - pose proof (binary64_below_1 _ (of_nat_ratio_below m n Hlt ltac:(lia))).
    lra.
  - repeat split; [done | done | lia |].
    apply (filter_all_length _). fold m. lia.
Qed.

End Scorer.

Section ScorerClaims.
Context {engine : Js.Unicode}.
Local Open Scope Q_scope.

(** Where no two entries of the first array fold to one, the entries of it
    that match are as many as the two folded sets have in common. *)
Lemma folded_common_size (userSkills jobSkills : list (list N)) :
  NoDup (Js.toLowerCase <$> userSkills) →
  size (fold_case (list_to_set userSkills) ∩
        fold_case (list_to_set jobSkills)) =
  length (filter (λ a, Js.toLowerCase a ∈ Js.toLowerCase <$> jobSkills)
                 userSkills).
Proof.
  intros Hu.
  set (kept := filter (λ a, Js.toLowerCase a ∈ Js.toLowerCase <$> jobSkills)
                      userSkills).
  assert (NoDup (Js.toLowerCase <$> kept)) as Hk.
  { eapply sublist_NoDup; [exact Hu|].
    apply fmap_sublist, sublist_filter. }
  rewrite <- (length_fmap Js.toLowerCase kept).
  rewrite <- (size_list_to_set (C := gset (list N))) by exact Hk.
  f_equal. apply set_eq. intros x. unfold fold_case.
  rewrite elem_of_intersection, !elem_of_map, elem_of_list_to_set.
  setoid_rewrite elem_of_list_to_set. rewrite list_elem_of_fmap.
  unfold kept. setoid_rewrite list_elem_of_filter.
  setoid_rewrite list_elem_of_fmap. split.
  - intros [(a & -> & Ha) (b & Hb & Hb')]. eauto 10.
  - intros (a & -> & (b & Hb & Hb') & Ha). eauto 10.
Qed.

(** C2 (amended): for two skill sets, handed to the scorer as arrays without
    repeated entries, the first of which holds no skill in two spellings, the
    score is the size of the intersection of the two sets folded to lower
    case, divided by the larger of the two sizes; and an empty input on either
    side gives 0, not an error. *)
Theorem score_is_overlap_ratio :
  (∀ userSkills jobSkills : list (list N),
     NoDup (Js.toLowerCase <$> userSkills) → NoDup jobSkills →
     calculateMatchScore userSkills jobSkills =
     score (list_to_set userSkills) (list_to_set jobSkills)) ∧
  (∀ skills : list (list N),
     calculateMatchScore [] skills = 0 ∧ calculateMatchScore skills [] = 0).
Proof.
  split.
  - intros userSkills jobSkills Hfold Hj. unfold score.
    pose proof (NoDup_fmap_1 _ _ Hfold) as Hu.
    destruct (decide (userSkills = [])) as [->|Hu'];
      [by rewrite decide_True by (by left)|].
    destruct (decide (jobSkills = [])) as [->|Hj'];
      [rewrite score_empty_r; by rewrite decide_True by (by right)|].
    rewrite decide_False.
    + rewrite score_unfold, folded_common_size, !size_list_to_set by done.
      done.
    + intros [H|H]; apply (f_equal size) in H;
        rewrite size_list_to_set, size_empty in H by done;
        [destruct userSkills | destruct jobSkills]; done.
  - intros skills. split; [apply score_empty_l | apply score_empty_r].
Qed.

(** C4 (amended): the score lies between 0 and 1; a non-empty set scores 1.0
    against itself; a score of 1.0 means that both sets are non-empty; and,
    for arrays the first of which holds no skill in two spellings, it means
    that the two sets hold the same skills when case is ignored. *)
Theorem score_range_and_one :
  (∀ A B : list (list N),
     0 <= calculateMatchScore A B ∧ calculateMatchScore A B <= 1) ∧
  (∀ A : list (list N), A ≠ [] → calculateMatchScore A A = 1) ∧
  (∀ A B : list (list N),
     calculateMatchScore A B == 1 → A ≠ [] ∧ B ≠ []) ∧
  (∀ A B : list (list N),
     Js.array A → Js.array B → NoDup (Js.toLowerCase <$> A) →
     calculateMatchScore A B == 1 →
     (Js.toLowerCase <$> A) ≡ₚ (Js.toLowerCase <$> B)).
Proof.
  split; [apply score_unit_interval|]. split; [apply score_self|]. split.
  - intros A B H1. split; intros ->.
    + rewrite score_empty_l in H1. lra.
    + rewrite score_empty_r in H1. lra.
  - intros A B LA LB HA H1.
    destruct (score_one_inv A B LA LB H1) as (NA & NB & Hlen & Hall).
    apply submseteq_length_Permutation; [|by rewrite !length_fmap].
    apply NoDup_submseteq; [done|].
    intros x (a & -> & Ha)%list_elem_of_fmap.
    by apply (proj1 (Forall_forall _ _) Hall).
Qed.

(** C5 (amended): the scorer is symmetric on two skill sets neither of which
    holds a skill in two spellings. *)
Theorem score_symmetric (A B : list (list N)) :
  NoDup (Js.toLowerCase <$> A) → NoDup (Js.toLowerCase <$> B) →
  calculateMatchScore A B = calculateMatchScore B A.
Proof.
  intros HA HB. unfold calculateMatchScore.
  rewrite (orb_comm (length B =? 0)%nat). destruct (_ || _); [done|].
  rewrite (Nat.max_comm (length B)). do 2 f_equal.
  apply Permutation_length, NoDup_Permutation; [by apply NoDup_filter..|].
  intros x. rewrite !list_elem_of_filter. tauto.
Qed.

(** One skill in two spellings, under every engine: both spellings of React
    match on the side that is filtered, one entry matches on the other side,
    and the two folded sets have one skill in common. *)
Lemma two_spellings :
  let A := js <$> ["React"; "react"] in
  let B := js <$> ["react"; "Git"] in
  NoDup A ∧ NoDup B ∧
  calculateMatchScore A B = 1 ∧
  calculateMatchScore B A = 1 # 2 ∧
  score (list_to_set A) (list_to_set B) = 1 # 2 ∧
  fold_case (list_to_set A) ≠ fold_case (list_to_set B) ∧
  ¬ (Js.toLowerCase <$> A) ≡ₚ (Js.toLowerCase <$> B).
Proof.
  intros A B.
  split; [apply (bool_decide_unpack _); vm_compute; exact I|].
  split; [apply (bool_decide_unpack _); vm_compute; exact I|].
  split; [vm_compute; reflexivity|].
  split; [vm_compute; reflexivity|].
  split; [vm_compute; reflexivity|].
  split.
  - apply (bool_decide_unpack _). vm_compute. exact I.
  - intros H.
    assert (Hg : js "git" ∈ Js.toLowerCase <$> A).
    { rewrite H. apply (bool_decide_unpack _). vm_compute. exact I. }
    revert Hg. apply (bool_decide_unpack _). vm_compute. exact I.
Qed.

End ScorerClaims.

Section ScorerExamples.
Local Open Scope Q_scope.

(** C2, as the specification states it, fails on a skill set that holds one
    skill in two spellings: both spellings of React match, so the scorer
    gives 2/2, while the two folded sets have one skill in common, which is
    1/2 of the larger size. *)
Lemma score_not_overlap_ratio :
  NoDup (js <$> ["React"; "react"]) ∧ NoDup (js <$> ["react"; "Git"]) ∧
  calculateMatchScore (js <$> ["React"; "react"]) (js <$> ["react"; "Git"])
    = 1 ∧
  score (list_to_set (js <$> ["React"; "react"]))
        (list_to_set (js <$> ["react"; "Git"])) = 1 # 2.
Proof.
  destruct two_spellings as (NA & NB & H1 & _ & H2 & _).
  split; [exact NA|]. split; [exact NB|]. split; [exact H1 | exact H2].
Qed.

Lemma score_is_overlap_ratio_witness :
  calculateMatchScore (js <$> ["React"; "Git"]) (js <$> ["git"; "node"]) =
  score (list_to_set (js <$> ["React"; "Git"]))
        (list_to_set (js <$> ["git"; "node"])) ∧
  score (list_to_set (js <$> ["React"; "Git"]))
        (list_to_set (js <$> ["git"; "node"])) = 1 # 2.
Proof.
  split; [|vm_compute; reflexivity].
  apply (proj1 score_is_overlap_ratio);
    apply (bool_decide_unpack _); vm_compute; exact I.
Defined.

(** C4, as the specification states it, fails on a skill set that holds one
    skill in two spellings: the score is 1.0 although the two sets differ,
    also when case is ignored. *)
Lemma score_one_not_identical :
  NoDup (js <$> ["React"; "react"]) ∧ NoDup (js <$> ["react"; "Git"]) ∧
  calculateMatchScore (js <$> ["React"; "react"]) (js <$> ["react"; "Git"])
    = 1 ∧
  fold_case (list_to_set (js <$> ["React"; "react"])) ≠
  fold_case (list_to_set (js <$> ["react"; "Git"])) ∧
  ¬ (Js.toLowerCase <$> (js <$> ["React"; "react"])) ≡ₚ
    (Js.toLowerCase <$> (js <$> ["react"; "Git"])).
Proof.
  destruct two_spellings as (NA & NB & H1 & _ & _ & Hsets & Hperm).
  split; [exact NA|]. split; [exact NB|]. split; [exact H1|].
  split; [exact Hsets | exact Hperm].
Qed.

Lemma score_range_and_one_witness :
  calculateMatchScore (js <$> ["AWS"; "Docker"]) (js <$> ["AWS"; "Docker"])
    = 1 ∧
  js <$> ["AWS"; "Docker"] ≠ [] ∧
  (Js.toLowerCase <$> (js <$> ["AWS"; "Docker"])) ≡ₚ
  (Js.toLowerCase <$> (js <$> ["docker"; "aws"])).
Proof.
  split; [|split].
  - apply (proj1 (proj2 score_range_and_one)). discriminate.
  - apply (proj1 (proj2 (proj2 score_range_and_one))
             (js <$> ["AWS"; "Docker"]) (js <$> ["docker"; "aws"])).
    vm_compute. reflexivity.
  - apply (proj2 (proj2 (proj2 score_range_and_one))).
    + vm_compute. reflexivity.
    + vm_compute. reflexivity.
    + apply (bool_decide_unpack _). vm_compute. exact I.
    + vm_compute. reflexivity.
Defined.

(** C5, as the specification states it, fails on a skill set that holds one
    skill in two spellings: both spellings count on the side that is
    filtered, one entry counts on the other side. *)
Lemma score_not_symmetric :
  NoDup (js <$> ["React"; "react"]) ∧ NoDup (js <$> ["react"; "Git"]) ∧
  calculateMatchScore (js <$> ["React"; "react"]) (js <$> ["react"; "Git"])
    = 1 ∧
  calculateMatchScore (js <$> ["react"; "Git"]) (js <$> ["React"; "react"])
    = 1 # 2.
Proof.
  destruct two_spellings as (NA & NB & H1 & H2 & _).
  split; [exact NA|]. split; [exact NB|]. split; [exact H1 | exact H2].
Qed.

Lemma score_symmetric_witness :
  calculateMatchScore (js <$> ["React"; "Git"]) (js <$> ["git"; "node"]) =
  calculateMatchScore (js <$> ["git"; "node"]) (js <$> ["React"; "Git"]).
Proof.
  apply score_symmetric; apply (bool_decide_unpack _); vm_compute; exact I.
Defined.

End ScorerExamples.

(** ** Sorting with a comparator *)

Section Sorting.
Context {A : Type} (compare : A → A → Q).
Local Open Scope Q_scope.

Abbreviation before := (stays_before compare).

Lemma sort_insert_Permutation (x : A) (l : list A) :
  sort_insert compare x l ≡ₚ x :: l.
Proof.
  induction l as [|y l IH]; simpl; [done|].
  destruct (Qle_bool _ _); [done|]. by rewrite IH, Permutation_swap.
Qed.

Lemma Array_sort_Permutation (l : list A) : Array_sort compare l ≡ₚ l.
Proof.
  induction l as [|x l IH]; simpl; [done|].
  by rewrite sort_insert_Permutation, IH.
Qed.



Hypothesis before_total : ∀ a b, ¬ before a b → before b a.
Hypothesis before_trans : ∀ a b c, before a b → before b c → before a c.

Lemma sort_insert_sorted (x : A) (l : list A) :
  StronglySorted before l → StronglySorted before (sort_insert compare x l).
Proof.
  induction 1 as [|y l Hl IH Hy]; simpl; [by repeat constructor|].
  destruct (Qle_bool (compare x y) 0) eqn:E.
  - apply Qle_bool_iff in E. constructor; [by constructor|].
    constructor; [done|]. eapply Forall_impl; [exact Hy|].
    intros z Hz. by apply (before_trans x y z).
  - assert (Hyx : before y x).
    { apply before_total. intros H%Qle_bool_iff. congruence. }
    constructor; [done|].
    rewrite sort_insert_Permutation. by constructor.
Qed.

Lemma Array_sort_sorted (l : list A) :
  StronglySorted before (Array_sort compare l).
Proof.
  induction l as [|x l IH]; simpl; [constructor | by apply sort_insert_sorted].
Qed.

End Sorting.

Lemma StronglySorted_weaken {A} (R S : A → A → Prop) (l : list A) :
  (∀ a b, R a b → S a b) → StronglySorted R l → StronglySorted S l.
Proof.
  intros HRS. induction 1 as [|x l _ IH Hx]; constructor; [done|].
  eapply Forall_impl; [exact Hx | apply HRS].
Qed.

Lemma StronglySorted_take {A} (R : A → A → Prop) (n : nat) (l : list A) :
  StronglySorted R l → StronglySorted R (take n l).
Proof.
  intros H. rewrite <- (take_drop n l) in H.
  by apply StronglySorted_app_1_l in H.
Qed.

(** ** The recommendation ranker *)

Section Ranker.
Context {engine : Js.Unicode}.
Local Open Scope Q_scope.

Lemma recommendation_matchScore userSkills (job : Job.record) :
  recommendation userSkills job !! "matchScore" =
  Some (VNumber (calculateMatchScore userSkills (Job.skills job))).
Proof.
  unfold recommendation. by rewrite lookup_insert_ne, lookup_insert_eq.
Qed.

Lemma recommendation_matchPercentage userSkills (job : Job.record) :
  recommendation userSkills job !! "matchPercentage" =
  Some (VNumber (Number.Math_round
    (Number.mul (calculateMatchScore userSkills (Job.skills job)) 100))).
Proof. unfold recommendation. by rewrite lookup_insert_eq. Qed.

Lemma matchScore_recommendation userSkills (job : Job.record) :
  matchScore (recommendation userSkills job) =
  calculateMatchScore userSkills (Job.skills job).
Proof. unfold matchScore. by rewrite recommendation_matchScore. Qed.

Lemma byScoreDescending_before (a b : gmap string Value) :
  byScoreDescending a b <= 0 ↔ matchScore b <= matchScore a.
Proof. apply sub_nonpos. Qed.

Lemma kept_filter (l : list (gmap string Value)) :
  filter (λ job, Number.gt (matchScore job) Number.lit_0_1) l =
  filter (λ e, Number.lit_0_1 < matchScore e) l.
Proof. apply list_filter_iff. intros e. by rewrite Is_true_true, gt_lt. Qed.

Lemma sorted_by_score (l : list (gmap string Value)) :
  StronglySorted (λ a b, matchScore b <= matchScore a)
                 (Array_sort byScoreDescending l).
Proof.
  eapply StronglySorted_weaken;
    [|apply (Array_sort_sorted byScoreDescending)].
  - intros a b. apply byScoreDescending_before.
  - intros a b. unfold stays_before. rewrite !byScoreDescending_before. lra.
  - intros a b c. unfold stays_before. rewrite !byScoreDescending_before. lra.
Qed.


Lemma top_are_recommendations userSkills (allJobs : list Job.record) e :
  e ∈ topRecommendations userSkills allJobs →
  e ∈ recommendations userSkills allJobs.
Proof.
  unfold topRecommendations. intros He%subseteq_take.
  rewrite Array_sort_Permutation in He.
  by apply list_elem_of_filter in He as [_ He].
Qed.




(** The percentage follows the arithmetic of doubles: 23 skills out of 40 give
    57, not 58, because the double next to 0.575, times 100, lies below 57.5;
    3 out of 200 give 2, because the product rounds to 1.5 exactly; 7 out of
    40 give 18, because the product rounds to 17.5 exactly. *)
Example percentage_23_of_40 :
  Number.Math_round (Number.mul (Number.div 23 40) 100) = 57.
Proof. vm_compute. reflexivity. Qed.

Example percentage_3_of_200 :
  Number.Math_round (Number.mul (Number.div 3 200) 100) = 2.
Proof. vm_compute. reflexivity. Qed.

Example percentage_7_of_40 :
  Number.Math_round (Number.mul (Number.div 7 40) 100) = 18.
Proof. vm_compute. reflexivity. Qed.

Example percentage_1_of_3 :
  Number.Math_round (Number.mul (Number.div 1 3) 100) = 33.
Proof. vm_compute. reflexivity. Qed.


End Ranker.

(** ** The handler *)

Section Handler.
Context {engine : Js.Unicode}.
Local Open Scope Q_scope.

(** C6: for a user without a parsed resume the handler answers at once, with
    status 200, success, an empty list of recommendations and the message that
    no resume was uploaded; the store has then received the lookup of the user
    and nothing else, so the jobs were not fetched and none was scored. *)
Theorem no_resume_short_circuit
    (st : Db.Store) (id : list N) (user : User.t) :
  Db.users st !! id = Some user →
  User.parsedResume user = None →
  job_recommendations id st =
    ({| status := 200; success := true;
        res_recommendations := Some []; res_userSkills := None;
        message := Some (js "No resume uploaded yet") |},
     Db.received (Db.UserFindById id) st) ∧
  Db.queries (job_recommendations id st).2 =
    (Db.queries st ++ [Db.UserFindById id])%list ∧
  Db.jobs (job_recommendations id st).2 = Db.jobs st ∧
  Db.users (job_recommendations id st).2 = Db.users st.
Proof.
  intros Hu Hr.
  assert (job_recommendations id st =
    ({| status := 200; success := true;
        res_recommendations := Some []; res_userSkills := None;
        message := Some (js "No resume uploaded yet") |},
     Db.received (Db.UserFindById id) st)) as ->; [|done].
  unfold job_recommendations, mbind, Db_bind, Db.bind, Db.User_findById.
  by rewrite Hu, Hr.
Qed.

Lemma score_against_empty (job : Job.record) :
  matchScore (recommendation [] job) = 0.
Proof. by rewrite matchScore_recommendation. Qed.

Lemma top_of_empty_skills (allJobs : list Job.record) :
  topRecommendations [] allJobs = [].
Proof.
  unfold topRecommendations, recommendations.
  assert (filter (λ job, Number.gt (matchScore job) Number.lit_0_1)
                 (recommendation [] <$> allJobs) = []) as ->; [|done].
  induction allJobs as [|job l IH]; [done|].
  rewrite fmap_cons, filter_cons_False; [done|].
  rewrite score_against_empty. by vm_compute.
Qed.

(** C9: a parsed resume whose [skills] are missing or empty does not take the
    branch of C6: the jobs are fetched, each is scored against the empty list,
    each score is 0 and fails the threshold, and the answer is a success with
    an empty list of recommendations, the empty list of skills, and no
    message. *)
Theorem empty_skills_score_every_job
    (st : Db.Store) (id : list N) (user : User.t)
    (parsedResume : ParsedResume.t) :
  Db.users st !! id = Some user →
  User.parsedResume user = Some parsedResume →
  ParsedResume.skills parsedResume = None ∨
  ParsedResume.skills parsedResume = Some [] →
  job_recommendations id st =
    ({| status := 200; success := true;
        res_recommendations := Some []; res_userSkills := Some [];
        message := None |},
     Db.received Db.JobFind (Db.received (Db.UserFindById id) st)) ∧
  length (recommendations [] (Db.jobs st)) = length (Db.jobs st) ∧
  (∀ e, e ∈ recommendations [] (Db.jobs st) →
        matchScore e = 0 ∧ Number.gt (matchScore e) Number.lit_0_1 = false).
Proof.
  intros Hu Hr Hs. split; [|split].
  - unfold job_recommendations, mbind, Db_bind, Db.bind, Db.User_findById.
    rewrite Hu, Hr.
    assert (default [] (ParsedResume.skills parsedResume) = []) as ->
      by (by destruct Hs as [-> | ->]).
    unfold Db.Job_find, mret, Db_ret, Db.ret. simpl.
    by rewrite top_of_empty_skills.
  - unfold recommendations. by rewrite length_fmap.
  - intros e (job & -> & _)%list_elem_of_fmap.
    rewrite score_against_empty. split; [done | by vm_compute].
Qed.

End Handler.

(** ** The ranker over the heap: what it computes and what it leaves alone *)

Section HeapFacts.
Context {engine : Js.Unicode}.

Lemma bind_run {A B} (m : Heap.M A) (k : A → Heap.M B) h a h' :
  m h = Some (a, h') → (m ≫= k) h = k a h'.
Proof. unfold mbind, Heap.M_bind, Heap.bind. by intros ->. Qed.

Lemma alloc_run (c : Heap.Cell) h :
  ∃ ℓ, Heap.alloc c h = Some (ℓ, <[ℓ := c]> h) ∧ h !! ℓ = None.
Proof.
  exists (fresh (dom h)). split; [done|]. apply not_elem_of_dom, is_fresh.
Qed.

Lemma strings_run h ℓ l :
  h !! ℓ = Some (Heap.Strings l) → Heap.strings ℓ h = Some (l, h).
Proof. unfold Heap.strings. by intros ->. Qed.

Lemma length_run h ℓ l :
  h !! ℓ = Some (Heap.Strings l) → Heap.length ℓ h = Some (length l, h).
Proof.
  intros H. unfold Heap.length. by rewrite (bind_run _ _ _ _ _ (strings_run _ _ _ H)).
Qed.

Lemma map_run f h ℓ l :
  h !! ℓ = Some (Heap.Strings l) →
  ∃ ℓ', Heap.map f ℓ h = Some (ℓ', <[ℓ' := Heap.Strings (f <$> l)]> h) ∧
        h !! ℓ' = None.
Proof.
  intros H. unfold Heap.map.
  rewrite (bind_run _ _ _ _ _ (strings_run _ _ _ H)). apply alloc_run.
Qed.

Lemma filterM_includes_run h ℓ l xs :
  h !! ℓ = Some (Heap.Strings l) →
  Heap.filterM (Heap.includes ℓ) xs h = Some (filter (λ x, x ∈ l) xs, h).
Proof.
  intros H. induction xs as [|x xs IH]; [done|]. simpl.
  unfold Heap.bind at 1. unfold Heap.includes at 1.
  rewrite (bind_run _ _ _ _ _ (strings_run _ _ _ H)).
  unfold mret at 1, Heap.M_ret, Heap.ret.
  rewrite (bind_run _ _ _ _ _ IH). rewrite filter_cons.
  unfold mret, Heap.M_ret, Heap.ret.
  destruct (decide (x ∈ l)) as [Hx|Hx].
  - by rewrite bool_decide_eq_true_2.
  - by rewrite bool_decide_eq_false_2.
Qed.

Lemma filter_includes_run h ℓ l ℓ' xs :
  h !! ℓ = Some (Heap.Strings l) → h !! ℓ' = Some (Heap.Strings xs) →
  ∃ ℓ'', Heap.filter (λ skill, Heap.includes ℓ skill) ℓ' h =
           Some (ℓ'', <[ℓ'' := Heap.Strings (filter (λ x, x ∈ l) xs)]> h) ∧
         h !! ℓ'' = None.
Proof.
  intros H H'. unfold Heap.filter.
  rewrite (bind_run _ _ _ _ _ (strings_run _ _ _ H')).
  rewrite (bind_run _ _ _ _ _ (filterM_includes_run _ _ _ _ H)).
  apply alloc_run.
Qed.

Lemma insert_fresh_subseteq (h : gmap Heap.loc Heap.Cell) ℓ c :
  h !! ℓ = None → h ⊆ <[ℓ := c]> h.
Proof. apply insert_subseteq. Qed.

Lemma calculateMatchScore_run h userSkills jobSkills us js :
  h !! userSkills = Some (Heap.Strings us) →
  h !! jobSkills = Some (Heap.Strings js) →
  ∃ h', Heap.calculateMatchScore userSkills jobSkills h =
          Some (calculateMatchScore us js, h') ∧ h ⊆ h'.
Proof.
  intros Hu Hj. unfold Heap.calculateMatchScore, calculateMatchScore.
  rewrite (bind_run _ _ _ _ _ (length_run _ _ _ Hu)).
  rewrite (bind_run _ _ _ _ _ (length_run _ _ _ Hj)).
  destruct (_ || _); [by exists h|].
  destruct (map_run Js.toLowerCase h _ _ Hu) as (ℓ1 & R1 & F1).
  rewrite (bind_run _ _ _ _ _ R1).
  pose proof (insert_fresh_subseteq h ℓ1 (Heap.Strings (Js.toLowerCase <$> us)) F1) as S1.
  set (h1 := <[ℓ1 := _]> h) in *.
  destruct (map_run Js.toLowerCase h1 _ _ (lookup_weaken _ _ _ _ Hj S1))
    as (ℓ2 & R2 & F2).
  rewrite (bind_run _ _ _ _ _ R2).
  pose proof (insert_fresh_subseteq h1 ℓ2 (Heap.Strings (Js.toLowerCase <$> js)) F2) as S2.
  set (h2 := <[ℓ2 := _]> h1) in *.
  assert (L1 : h2 !! ℓ1 = Some (Heap.Strings (Js.toLowerCase <$> us))).
  { eapply lookup_weaken; [|exact S2]. apply lookup_insert_eq. }
  assert (L2 : h2 !! ℓ2 = Some (Heap.Strings (Js.toLowerCase <$> js)))
    by apply lookup_insert_eq.
  destruct (filter_includes_run h2 _ _ _ _ L2 L1) as (ℓ3 & R3 & F3).
  rewrite (bind_run _ _ _ _ _ R3).
  pose proof (insert_fresh_subseteq h2 ℓ3
    (Heap.Strings (filter (λ x, x ∈ Js.toLowerCase <$> js)
                          (Js.toLowerCase <$> us))) F3) as S3.
  set (h3 := <[ℓ3 := _]> h2) in *.
  assert (S : h ⊆ h3) by (etrans; [exact S1|]; etrans; [exact S2 | exact S3]).
  rewrite (bind_run _ _ _ _ _ (length_run h3 ℓ3 _ (lookup_insert_eq _ _ _))).
  rewrite (bind_run _ _ _ _ _ (length_run _ _ _ (lookup_weaken _ _ _ _ Hu S))).
  rewrite (bind_run _ _ _ _ _ (length_run _ _ _ (lookup_weaken _ _ _ _ Hj S))).
  by exists h3.
Qed.

Lemma toObject_run h (job : Job.t Heap.loc) s :
  h !! Job.skills job = Some (Heap.Strings s) →
  Heap.toObject job h = Some (Job.toObject (Job.with_skills job s), h).
Proof.
  intros Hs. unfold Heap.toObject.
  by rewrite (bind_run _ _ _ _ _ (strings_run _ _ _ Hs)).
Qed.

Lemma recommendation_run h userSkills us (job : Job.t Heap.loc) s :
  h !! userSkills = Some (Heap.Strings us) →
  h !! Job.skills job = Some (Heap.Strings s) →
  ∃ h', Heap.recommendation userSkills job h =
          Some (recommendation us (Job.with_skills job s), h') ∧ h ⊆ h'.
Proof.
  intros Hu Hs. unfold Heap.recommendation.
  destruct (calculateMatchScore_run h _ _ _ _ Hu Hs) as (h' & R & S).
  rewrite (bind_run _ _ _ _ _ R).
  rewrite (bind_run _ _ _ _ _ (toObject_run _ _ _ (lookup_weaken _ _ _ _ Hs S))).
  by exists h'.
Qed.

Lemma mapM_recommendation_run h0 h userSkills us docs records :
  h0 ⊆ h →
  h0 !! userSkills = Some (Heap.Strings us) →
  Forall2 (λ doc r, Heap.record h0 doc = Some r) docs records →
  ∃ h', Heap.mapM (Heap.recommendation userSkills) docs h =
          Some (recommendation us <$> records, h') ∧ h ⊆ h'.
Proof.
  intros S0 Hu Hdocs. revert h S0.
  induction Hdocs as [|doc r docs records Hr _ IH]; intros h S0.
  - by exists h.
  - unfold Heap.record in Hr.
    destruct (h0 !! Job.skills doc) as [[s| |]|] eqn:Hs; try done.
    injection Hr as <-.
    destruct (recommendation_run h userSkills us doc s
                (lookup_weaken _ _ _ _ Hu S0) (lookup_weaken _ _ _ _ Hs S0))
      as (h1 & R1 & S1).
    destruct (IH h1 ltac:(by etrans)) as (h2 & R2 & S2).
    simpl. rewrite (bind_run _ _ _ _ _ R1), (bind_run _ _ _ _ _ R2).
    exists h2. split; [done | by etrans].
Qed.

End HeapFacts.

(** ** Entries and the objects of their jobs *)

Section Entries.
Context {engine : Js.Unicode}.

Lemma lookup_put_ne k o (m : gmap string Value) k' :
  k ≠ k' → Job.put k o m !! k' = m !! k'.
Proof. intros H. destruct o; simpl; [by rewrite lookup_insert_ne | done]. Qed.

Lemma toObject_lacks (job : Job.record) k :
  k = "matchScore" ∨ k = "matchPercentage" → Job.toObject job !! k = None.
Proof.
  intros [-> | ->]; unfold Job.toObject;
    by rewrite !lookup_put_ne, !lookup_insert_ne, lookup_singleton_ne.
Qed.

Lemma dom_insert_two (o : gmap string Value) a b x y :
  dom (<[b := y]> (<[a := x]> o)) = dom o ∪ {[a; b]}.
Proof.
  rewrite !dom_insert_L. apply set_eq. intros k.
  rewrite !elem_of_union, !elem_of_singleton. tauto.
Qed.

Lemma recommendation_adds_two_fields userSkills (job : Job.record) :
  adds_two_fields (Job.toObject job) (recommendation userSkills job).
Proof.
  pose proof (toObject_lacks job "matchScore" ltac:(by left)) as Hs.
  pose proof (toObject_lacks job "matchPercentage" ltac:(by right)) as Hp.
  split; [|split; [|split]].
  - intros k v Hk. unfold recommendation.
    rewrite !lookup_insert_ne; [done|..]; intros <-; congruence.
  - apply dom_insert_two.
  - by apply not_elem_of_dom.
  - by apply not_elem_of_dom.
Qed.

(** The ranker on the heap returns a new array with the entries the function
    on lists computes, and every array that was there before holds what it
    held. *)
Lemma rank_run h userSkills allJobs us docs records :
  h !! userSkills = Some (Heap.Strings us) →
  h !! allJobs = Some (Heap.Jobs docs) →
  Forall2 (λ doc r, Heap.record h doc = Some r) docs records →
  ∃ ℓ h', Heap.rank userSkills allJobs h = Some (ℓ, h') ∧
          h' !! ℓ = Some (Heap.Entries (topRecommendations us records)) ∧
          h !! ℓ = None ∧ h ⊆ h'.
Proof.
  intros Hu Hj Hdocs. unfold Heap.rank, Heap.recommendations.
  assert (Rj : Heap.jobs allJobs h = Some (docs, h))
    by (unfold Heap.jobs; by rewrite Hj).
  destruct (mapM_recommendation_run h h userSkills us docs records
              ltac:(done) Hu Hdocs) as (h1 & R1 & S1).
  destruct (alloc_run (Heap.Entries (recommendation us <$> records)) h1)
    as (ℓr & Rr & Fr).
  assert (R : (l ← Heap.jobs allJobs;
               r ← Heap.mapM (Heap.recommendation userSkills) l;
               Heap.alloc (Heap.Entries r)) h =
              Some (ℓr, <[ℓr := Heap.Entries (recommendation us <$> records)]> h1)).
  { by rewrite (bind_run _ _ _ _ _ Rj), (bind_run _ _ _ _ _ R1). }
  rewrite (bind_run _ _ _ _ _ R). clear R.
  pose proof (insert_fresh_subseteq h1 ℓr
    (Heap.Entries (recommendation us <$> records)) Fr) as Sr.
  set (h2 := <[ℓr := _]> h1) in *.
  unfold Heap.topRecommendations.
  assert (Re : Heap.entries ℓr h2 =
               Some (recommendation us <$> records, h2))
    by (unfold Heap.entries, h2; by rewrite lookup_insert_eq).
  rewrite (bind_run _ _ _ _ _ Re).
  set (kept := filter _ (recommendation us <$> records)).
  destruct (alloc_run (Heap.Entries kept) h2) as (ℓk & Rk & Fk).
  rewrite (bind_run _ _ _ _ _ Rk).
  assert (Rk1 : Heap.entries ℓk (<[ℓk := Heap.Entries kept]> h2) =
                Some (kept, <[ℓk := Heap.Entries kept]> h2))
    by (unfold Heap.entries; by rewrite lookup_insert_eq).
  rewrite (bind_run _ _ _ _ _ Rk1).
  set (sorted := Array_sort byScoreDescending kept).
  assert (Rs : Heap.store ℓk (Heap.Entries sorted)
                 (<[ℓk := Heap.Entries kept]> h2) =
               Some (tt, <[ℓk := Heap.Entries sorted]> h2)).
  { unfold Heap.store. by rewrite lookup_insert_eq, insert_insert_eq. }
  rewrite (bind_run _ _ _ _ _ Rs).
  pose proof (insert_fresh_subseteq h2 ℓk (Heap.Entries sorted) Fk) as Sk.
  set (h3 := <[ℓk := Heap.Entries sorted]> h2) in *.
  assert (Rk2 : Heap.entries ℓk h3 = Some (sorted, h3))
    by (unfold Heap.entries, h3; by rewrite lookup_insert_eq).
  rewrite (bind_run _ _ _ _ _ Rk2).
  destruct (alloc_run (Heap.Entries (take 10 sorted)) h3) as (ℓt & Rt & Ft).
  exists ℓt, (<[ℓt := Heap.Entries (take 10 sorted)]> h3).
  assert (S : h ⊆ h3) by (etrans; [exact S1|]; etrans; [exact Sr | exact Sk]).
  split; [exact Rt|]. split; [by rewrite lookup_insert_eq|]. split.
  - destruct (h !! ℓt) as [c|] eqn:E; [|done].
    apply (lookup_weaken _ _ _ _ E) in S. congruence.
  - etrans; [exact S|]. by apply insert_fresh_subseteq.
Qed.

Lemma handler_store_unchanged (st : Db.Store) (id : list N) :
  Db.users (job_recommendations id st).2 = Db.users st ∧
  Db.jobs (job_recommendations id st).2 = Db.jobs st.
Proof.
  unfold job_recommendations, mbind, Db_bind, Db.bind, Db.User_findById.
  destruct (Db.users st !! id) as [user|]; [|done].
  destruct (User.parsedResume user); done.
Qed.

Lemma lookup_put_eq k o (m : gmap string Value) :
  m !! k = None → Job.put k o m !! k = VString <$> o.
Proof. intros H. destruct o; simpl; [by rewrite lookup_insert_eq | done]. Qed.

(** The plain object of a job holds each path of the job. *)
Lemma toObject_carries_job (job : Job.record) :
  carries_job job (Job.toObject job).
Proof.
  unfold carries_job, Job.toObject.
  repeat split;
    rewrite ?lookup_put_ne by done;
    first
      [ rewrite lookup_put_eq;
        [done | by rewrite ?lookup_put_ne, ?lookup_insert_ne,
                           ?lookup_singleton_ne by done]
      | by rewrite ?lookup_insert_ne, ?lookup_insert_eq,
                   ?lookup_singleton_eq by done ].
Qed.

Lemma toObject_paths (job : Job.record) k :
  k ∉ job_paths → Job.toObject job !! k = None.
Proof.
  unfold job_paths. rewrite !not_elem_of_cons.
  intros (? & ? & ? & ? & ? & ? & ? & ? & ? & ? & ? & ? & ? & _).
  unfold Job.toObject.
  by rewrite !lookup_put_ne, !lookup_insert_ne, lookup_singleton_ne.
Qed.

Lemma recommendation_extends_job userSkills (job : Job.record) :
  extends_job job (recommendation userSkills job).
Proof.
  split; [|split].
  - pose proof (toObject_carries_job job) as H. unfold carries_job in *.
    unfold recommendation. by rewrite !lookup_insert_ne by done.
  - eexists _, _. split.
    + apply recommendation_matchScore.
    + apply recommendation_matchPercentage.
  - intros k Hk Hs Hp. unfold recommendation.
    rewrite !lookup_insert_ne by done. by apply toObject_paths.
Qed.

(** C10: the entry of a job holds every path of the job with the value the
    job has there (its id, its title, its array of skills and so on: every
    property of the job's plain object), and [matchScore] and
    [matchPercentage] besides, and no other property; this holds of the entry
    built for each job and of each entry returned.  The ranker writes to no
    array it was given: run on a heap, it returns a new array, and the array
    of the candidate's skills, the array of the jobs and the arrays of their
    skills hold what they held; and the handler leaves the users and jobs of
    the store as they were. *)
Theorem ranker_adds_two_fields_and_writes_nothing :
  (∀ userSkills (allJobs : list Job.record) i job,
     allJobs !! i = Some job →
     ∃ e, recommendations userSkills allJobs !! i = Some e ∧
          extends_job job e ∧
          adds_two_fields (Job.toObject job) e) ∧
  (∀ userSkills (allJobs : list Job.record) e,
     e ∈ topRecommendations userSkills allJobs →
     ∃ job, job ∈ allJobs ∧ extends_job job e ∧
            adds_two_fields (Job.toObject job) e) ∧
  (∀ h userSkills allJobs us docs records,
     h !! userSkills = Some (Heap.Strings us) →
     h !! allJobs = Some (Heap.Jobs docs) →
     Forall2 (λ doc r, Heap.record h doc = Some r) docs records →
     ∃ ℓ h', Heap.rank userSkills allJobs h = Some (ℓ, h') ∧
             h' !! ℓ = Some (Heap.Entries (topRecommendations us records)) ∧
             h !! ℓ = None ∧
             (∀ ℓ0 c, h !! ℓ0 = Some c → h' !! ℓ0 = Some c)) ∧
  (∀ st id,
     Db.users (job_recommendations id st).2 = Db.users st ∧
     Db.jobs (job_recommendations id st).2 = Db.jobs st).
Proof.
  split; [|split; [|split]].
  - intros userSkills allJobs i job Hi.
    exists (recommendation userSkills job). unfold recommendations.
    rewrite list_lookup_fmap, Hi. split; [done|].
    split; [apply recommendation_extends_job|].
    apply recommendation_adds_two_fields.
  - intros userSkills allJobs e He%top_are_recommendations.
    apply list_elem_of_fmap in He as (job & -> & Hjob).
    exists job. split; [done|].
    split; [apply recommendation_extends_job|].
    apply recommendation_adds_two_fields.
  - intros h userSkills allJobs us docs records Hu Hj Hdocs.
    destruct (rank_run h userSkills allJobs us docs records Hu Hj Hdocs)
      as (ℓ & h' & R & Hℓ & Hnew & S).
    exists ℓ, h'. repeat split; try done.
    intros ℓ0 c H0. by eapply lookup_weaken.
  - apply handler_store_unchanged.
Qed.

End Entries.

Section SampleData.
Local Open Scope Q_scope.

(** The sample postings ranked for the skills of the mock resume: the full
    stack, the backend and the frontend posting, at 80, 60 and 40 percent. *)
Example sample_ranking {engine : Js.Unicode} :
  (λ e, (e !! "title", matchScore e, matchPercentage e)) <$>
    topRecommendations parsedData_skills sampleJobs =
  [ (Some (VString (js "Full Stack Developer")), Number.div 4 5, 80);
    (Some (VString (js "Backend Developer")), Number.div 3 5, 60);
    (Some (VString (js "Frontend Developer")), Number.div 2 5, 40) ].
Proof. vm_compute. reflexivity. Qed.




Lemma no_resume_short_circuit_witness :
  let st := {| Db.users := {[user_1 := {| User.parsedResume := None |}]};
               Db.jobs := []; Db.queries := [] |} in
  (job_recommendations user_1 st).1 =
    {| status := 200; success := true;
       res_recommendations := Some []; res_userSkills := None;
       message := Some (js "No resume uploaded yet") |}.
Proof.
  intros st.
  by rewrite (proj1 (no_resume_short_circuit st user_1
                       {| User.parsedResume := None |} eq_refl eq_refl)).
Defined.

Lemma empty_skills_score_every_job_witness :
  let st := {| Db.users :=
                 {[user_1 := {| User.parsedResume :=
                                   Some {| ParsedResume.skills := None |} |}]};
               Db.jobs := sampleJobs; Db.queries := [] |} in
  (job_recommendations user_1 st).1 =
    {| status := 200; success := true;
       res_recommendations := Some []; res_userSkills := Some [];
       message := None |}.
Proof.
  intros st.
  by rewrite (proj1 (empty_skills_score_every_job st user_1 _ _
                       eq_refl eq_refl (or_introl eq_refl))).
Defined.

Lemma ranker_adds_two_fields_and_writes_nothing_witness :
  (∃ e, recommendations parsedData_skills sampleJobs !! 0%nat = Some e ∧
        e !! "title" = Some (VString (js "Frontend Developer")) ∧
        e !! "skills" =
          Some (VStrings
                  (js <$> ["React"; "JavaScript"; "HTML"; "CSS"; "TypeScript"])) ∧
        e !! "companyWebsite" = None ∧
        e !! "applicants" = None) ∧
  let doc := Job.with_skills (posting "65f1c0de65f1c0de65f1c0d1" "t" "c" "l" "s" "y"
                                      "d" "r" [])
                             2%positive in
  let h : gmap Heap.loc Heap.Cell :=
    {[ 1%positive := Heap.Strings parsedData_skills;
       2%positive := Heap.Strings (js <$> ["React"; "Git"]);
       3%positive := Heap.Jobs [doc] ]} in
  ∃ ℓ h', Heap.rank 1%positive 3%positive h = Some (ℓ, h') ∧
          h' !! 1%positive = Some (Heap.Strings parsedData_skills) ∧
          h' !! 2%positive = Some (Heap.Strings (js <$> ["React"; "Git"])) ∧
          h' !! 3%positive = Some (Heap.Jobs [doc]).
Proof.
  split.
  - destruct (proj1 ranker_adds_two_fields_and_writes_nothing
                parsedData_skills sampleJobs 0%nat _ eq_refl)
      as (e & He & (Hjob & _ & Hno) & _).
    exists e. split; [exact He|].
    destruct Hjob as (_ & Ht & _ & _ & _ & _ & _ & _ & Hw & Hs & _).
    split; [exact Ht|]. split; [exact Hs|]. split; [exact Hw|].
    apply Hno; [|done..].
    apply (bool_decide_unpack _). vm_compute. exact I.
  - intros doc h.
    destruct (proj1 (proj2 (proj2 ranker_adds_two_fields_and_writes_nothing))
                h 1%positive 3%positive parsedData_skills [doc]
                [Job.with_skills doc (js <$> ["React"; "Git"])])
      as (ℓ & h' & R & _ & _ & S).
    + reflexivity.
    + reflexivity.
    + repeat constructor.
    + exists ℓ, h'. split; [exact R|]. repeat split; apply S; reflexivity.
Defined.

End SampleData.

(** * Further properties of the code *)

(** ** The skill extractor, beyond the claims *)

Section ExtractorMore.
Context {engine : Js.Unicode}.

Lemma includes_trans (big mid s : list N) :
  Js.includes big mid = true → Js.includes mid s = true →
  Js.includes big s = true.
Proof.
  intros (p & q & ->)%includes_append (p' & q' & ->)%includes_append.
  apply includes_append. exists (p ++ p'), (q' ++ q).
  by rewrite !append_assoc.
Qed.

Lemma filter_sublist_impl {A} (P Q : A → Prop)
    `{∀ x, Decision (P x)} `{∀ x, Decision (Q x)} (l : list A) :
  (∀ x, x ∈ l → P x → Q x) → filter P l `sublist_of` filter Q l.
Proof.
  induction l as [|x l IH]; intros HPQ; [done|].
  assert (IH' : filter P l `sublist_of` filter Q l).
  { apply IH. intros y Hy. apply HPQ. by right. }
  rewrite !filter_cons. destruct (decide (P x)) as [HP|HP].
  - rewrite decide_True by (apply HPQ; [by left | done]).
    by apply sublist_skip.
  - destruct (decide (Q x)); [by apply sublist_cons | done].
Qed.

Lemma filter_ext_elem {A} (P Q : A → Prop)
    `{∀ x, Decision (P x)} `{∀ x, Decision (Q x)} (l : list A) :
  (∀ x, x ∈ l → P x ↔ Q x) → filter P l = filter Q l.
Proof.
  induction l as [|x l IH]; intros HPQ; [done|].
  rewrite !filter_cons, IH by (intros y Hy; apply HPQ; by right).
  destruct (decide (P x)) as [HP|HP].
  - by rewrite decide_True by (apply HPQ; [by left | done]).
  - rewrite decide_False; [done|]. intros HQ. apply HP, HPQ; [by left | done].
Qed.

(** X1: a text that occurs in another when case is ignored yields no skill
    the other does not yield, and yields them in the same order; two texts
    that agree when case is ignored yield the same skills. *)
Theorem extract_monotone (text text' : list N) :
  (occurs_ignoring_case text text' →
   extractSkillsFromText text `sublist_of` extractSkillsFromText text') ∧
  (Js.toLowerCase text = Js.toLowerCase text' →
   extractSkillsFromText text = extractSkillsFromText text').
Proof.
  split.
  - intros Hocc%includes_occurs. unfold extractSkillsFromText.
    apply filter_sublist_impl. intros skill _ H%Is_true_true.
    apply Is_true_true. by eapply includes_trans.
  - intros H. unfold extractSkillsFromText. by rewrite H.
Qed.

End ExtractorMore.

Lemma extract_monotone_witness :
  extractSkillsFromText (js "react") `sublist_of`
    extractSkillsFromText (js "We use React and Git") ∧
  extractSkillsFromText (js "REACT, git") =
  extractSkillsFromText (js "react, GIT").
Proof.
  split.
  - apply (proj1 (extract_monotone (js "react") (js "We use React and Git"))).
    exists (js "we use "), (js " and git"). reflexivity.
  - apply (proj2 (extract_monotone (js "REACT, git") (js "react, GIT"))).
    reflexivity.
Defined.

(** ** The match scorer, beyond the claims *)

Section ScorerMore.
Context {engine : Js.Unicode}.
Local Open Scope Q_scope.

Lemma score_matches (A B : list (list N)) :
  A ≠ [] → B ≠ [] →
  calculateMatchScore A B =
  Number.div (Number.of_nat (matches A B))
             (Number.of_nat (Nat.max (length A) (length B))).
Proof. apply score_unfold. Qed.

Lemma matches_le (A B : list (list N)) : (matches A B ≤ length A)%nat.
Proof. apply length_filter. Qed.

Lemma matches_nil_r (A : list (list N)) : matches A [] = 0%nat.
Proof.
  unfold matches. induction A as [|a A IH]; [done|].
  rewrite filter_cons_False; [done|]. rewrite fmap_nil. apply not_elem_of_nil.
Qed.

Lemma matches_zero (A B : list (list N)) :
  matches A B = 0%nat ↔
  Forall (λ a, Js.toLowerCase a ∉ Js.toLowerCase <$> B) A.
Proof.
  unfold matches. induction A as [|a A IH]; [by split|].
  rewrite filter_cons, Forall_cons.
  destruct (decide (Js.toLowerCase a ∈ Js.toLowerCase <$> B)); simpl.
  - split; [lia | by intros [? _]].
  - rewrite IH. tauto.
Qed.

Lemma of_nat_pos (n : nat) : (0 < n)%nat → 0 < Number.of_nat n.
Proof.
  intros H. unfold Number.of_nat. change 0 with (inject_Z 0).
  rewrite <- Zlt_Qlt. lia.
Qed.

(** X2: the score is 0 exactly when no entry of the first array matches an
    entry of the second; an empty array on either side is a case of it. *)
Theorem score_zero_iff_no_match (A B : list (list N)) :
  calculateMatchScore A B == 0 ↔
  Forall (λ a, Js.toLowerCase a ∉ Js.toLowerCase <$> B) A.
Proof.
  rewrite <- matches_zero.
  destruct (decide (A = [])) as [->|HA]; [by rewrite score_empty_l|].
  destruct (decide (B = [])) as [->|HB];
    [by rewrite score_empty_r, matches_nil_r|].
  rewrite score_matches by done. unfold Number.div.
  assert (Hn : 0 < Number.of_nat (Nat.max (length A) (length B)))
    by (apply of_nat_pos; destruct A; [done | simpl; lia]).
  split.
  - intros H0. destruct (decide (matches A B = 0%nat)) as [|Hm]; [done|].
    assert (0 < Number.of_nat (matches A B)) by (apply of_nat_pos; lia).
    assert (0 < Number.of_nat (matches A B) /
                Number.of_nat (Nat.max (length A) (length B)))
      by (apply Qlt_shift_div_l; [done | lra]).
    pose proof (binary64_sign_pos _ H1). lra.
  - intros ->. rewrite (binary64_zero (_ / _)); [done|].
    unfold Number.of_nat. simpl. unfold Qdiv. ring.
Qed.

(** X3: the score passes the threshold of the ranker exactly when ten times
    the number of matching entries exceeds the larger of the two lengths; so
    a job that matches in exactly one tenth is not recommended, and rounding
    to a double moves no job across the threshold. *)
Theorem score_above_threshold (A B : list (list N)) :
  Js.array A → Js.array B →
  Number.gt (calculateMatchScore A B) Number.lit_0_1 = true ↔
  (Nat.max (length A) (length B) < 10 * matches A B)%nat.
Proof.
  unfold Js.array. intros LA LB. rewrite gt_lt.
  assert (L01 : 0 < Number.lit_0_1) by (vm_compute; reflexivity).
  pose proof (matches_le A B) as Hle.
  destruct (decide (A = [])) as [->|HA].
  { rewrite score_empty_l. simpl in Hle. split; [lra | lia]. }
  destruct (decide (B = [])) as [->|HB].
  { rewrite score_empty_r, matches_nil_r. split; [lra | lia]. }
  rewrite score_matches by done. unfold Number.div, Number.lit_0_1.
  set (m := matches A B) in *.
  set (n := Nat.max (length A) (length B)).
  assert (Hn : (0 < n)%nat) by (subst n; destruct A; [done | simpl; lia]).
  assert (Hn32 : (Z.of_nat n < 2 ^ 32)%Z) by lia.
  assert (Qn : 0 < Number.of_nat n) by by apply of_nat_pos.
  assert (Qn32 : Number.of_nat n <= 4294967295).
  { unfold Number.of_nat. change 4294967295 with (inject_Z 4294967295).
    rewrite <- Zle_Qle. lia. }
  split.
  - intros H. destruct (decide (n < 10 * m)%nat) as [|Hge]; [done|].
    assert (Number.of_nat m / Number.of_nat n <= 1 # 10).
    { apply Qle_shift_div_r; [done|].
      assert (10 * Number.of_nat m <= Number.of_nat n); [|lra].
      unfold Number.of_nat. change 10 with (inject_Z 10).
      rewrite <- inject_Z_mult, <- Zle_Qle. lia. }
    pose proof (binary64_mono _ _ H0). lra.
  - intros H.
    assert (H' : Number.of_nat n + 1 <= 10 * Number.of_nat m).
    { unfold Number.of_nat. change 10 with (inject_Z 10).
      change 1 with (inject_Z 1).
      rewrite <- inject_Z_mult, <- inject_Z_plus, <- Zle_Qle. lia. }
    assert ((1 # 10) + (1 # 42949672950) <=
            Number.of_nat m / Number.of_nat n)
      by (apply Qle_shift_div_l; [done | lra]).
    eapply Qlt_le_trans; [|apply binary64_mono; eassumption].
    vm_compute. reflexivity.
Qed.

Lemma matches_fmap (A B : list (list N)) :
  matches A B =
  length (filter (λ x, x ∈ Js.toLowerCase <$> B) (Js.toLowerCase <$> A)).
Proof. unfold matches. by rewrite filter_fmap_length. Qed.

Lemma score_by_counts (A B A' B' : list (list N)) :
  length A = length A' → length B = length B' →
  matches A B = matches A' B' →
  calculateMatchScore A B = calculateMatchScore A' B'.
Proof.
  intros HA HB Hm.
  destruct (decide (A = [])) as [->|NA].
  { destruct A'; [|done]. by rewrite !score_empty_l. }
  destruct (decide (B = [])) as [->|NB].
  { destruct B'; [|done]. by rewrite !score_empty_r. }
  assert (A' ≠ []) by (intros ->; by destruct A).
  assert (B' ≠ []) by (intros ->; by destruct B).
  rewrite !score_matches by done. by rewrite HA, HB, Hm.
Qed.

(** X4: the score does not depend on the order of the entries of either array
    nor on their case: two pairs of arrays that hold the same entries, up to
    order, once lower-cased, score the same. *)
Theorem score_order_and_case (A B A' B' : list (list N)) :
  (Js.toLowerCase <$> A) ≡ₚ (Js.toLowerCase <$> A') →
  (Js.toLowerCase <$> B) ≡ₚ (Js.toLowerCase <$> B') →
  calculateMatchScore A B = calculateMatchScore A' B'.
Proof.
  intros HA HB. apply score_by_counts.
  - apply Permutation_length in HA. by rewrite !length_fmap in HA.
  - apply Permutation_length in HB. by rewrite !length_fmap in HB.
  - rewrite !matches_fmap. rewrite HA.
    f_equal. apply list_filter_iff. intros x. by rewrite HB.
Qed.

Lemma matches_swap (A B : list (list N)) :
  NoDup (Js.toLowerCase <$> A) → NoDup (Js.toLowerCase <$> B) →
  matches A B = matches B A.
Proof.
  intros HA HB. rewrite !matches_fmap.
  apply Permutation_length, NoDup_Permutation; [by apply NoDup_filter..|].
  intros x. rewrite !list_elem_of_filter. tauto.
Qed.

Lemma NoDup_fmap_inj_on {A B} (f : A → B) (l : list A) x y :
  NoDup (f <$> l) → x ∈ l → y ∈ l → f x = f y → x = y.
Proof.
  induction l as [|a l IH]; intros Hnd Hx Hy Hf; [by apply elem_of_nil in Hx|].
  rewrite fmap_cons in Hnd. apply NoDup_cons in Hnd as [Ha Hnd].
  apply elem_of_cons in Hx as [->|Hx], Hy as [->|Hy]; [done|..|by apply IH].
  - destruct Ha. rewrite Hf. by apply list_elem_of_fmap_2.
  - destruct Ha. rewrite <- Hf. by apply list_elem_of_fmap_2.
Qed.

Lemma commonSkills_lower_NoDup : NoDup (Js.toLowerCase <$> commonSkills).
Proof. apply (bool_decide_unpack _). vm_compute. exact I. Qed.

Lemma extract_lower_NoDup (text : list N) :
  NoDup (Js.toLowerCase <$> extractSkillsFromText text).
Proof.
  apply (sublist_NoDup _ (Js.toLowerCase <$> commonSkills)).
  - apply commonSkills_lower_NoDup.
  - apply fmap_sublist, sublist_filter.
Qed.

Lemma extract_array (text : list N) : Js.array (extractSkillsFromText text).
Proof.
  unfold Js.array.
  pose proof (sublist_length _ _ (sublist_filter
    (λ skill, Js.includes (Js.toLowerCase text) (Js.toLowerCase skill))
    commonSkills)) as H.
  change (length commonSkills) with 32%nat in H.
  unfold extractSkillsFromText. lia.
Qed.

Lemma extract_elem (text skill : list N) :
  skill ∈ extractSkillsFromText text → skill ∈ commonSkills.
Proof. unfold extractSkillsFromText. by intros [_ ?]%list_elem_of_filter. Qed.

Lemma score_swap (A B : list (list N)) :
  NoDup (Js.toLowerCase <$> A) → NoDup (Js.toLowerCase <$> B) →
  calculateMatchScore A B = calculateMatchScore B A.
Proof.
  intros HA HB.
  destruct (decide (A = [])) as [->|NA];
    [by rewrite score_empty_l, score_empty_r|].
  destruct (decide (B = [])) as [->|NB];
    [by rewrite score_empty_l, score_empty_r|].
  rewrite !score_matches by done.
  by rewrite matches_swap, Nat.max_comm.
Qed.

(** X5: skills that come out of the extractor never hold one skill in two
    spellings, so on them the scorer is symmetric, and it gives 1.0 exactly
    for two equal, non-empty skill lists. *)
Theorem extracted_skills_score (text1 text2 : list N) :
  let A := extractSkillsFromText text1 in
  let B := extractSkillsFromText text2 in
  NoDup (Js.toLowerCase <$> A) ∧
  calculateMatchScore A B = calculateMatchScore B A ∧
  (calculateMatchScore A B == 1 ↔ A = B ∧ A ≠ []).
Proof.
  intros A B.
  pose proof (extract_lower_NoDup text1) as NA.
  pose proof (extract_lower_NoDup text2) as NB. fold A in NA. fold B in NB.
  split; [done|]. split; [by apply score_swap|]. split.
  - intros H1.
    destruct (score_one_inv A B (extract_array _) (extract_array _) H1)
      as (HA & _ & Hlen & Hall).
    split; [|done].
    assert (HP : (Js.toLowerCase <$> A) ≡ₚ (Js.toLowerCase <$> B)).
    { apply submseteq_length_Permutation; [|by rewrite !length_fmap].
      apply NoDup_submseteq; [done|].
      intros x (a & -> & Ha)%list_elem_of_fmap.
      by apply (proj1 (Forall_forall _ _) Hall). }
    assert (Hmem : ∀ x, x ∈ commonSkills → x ∈ A ↔ x ∈ B).
    { intros x Hx. split; intros Hin.
      - assert (Js.toLowerCase x ∈ Js.toLowerCase <$> B) as
          (b & Hb & Hb')%list_elem_of_fmap
          by (rewrite <- HP; by apply list_elem_of_fmap_2).
        rewrite (NoDup_fmap_inj_on Js.toLowerCase commonSkills x b
                   commonSkills_lower_NoDup Hx (extract_elem _ _ Hb') Hb).
        done.
      - assert (Js.toLowerCase x ∈ Js.toLowerCase <$> A) as
          (a & Ha & Ha')%list_elem_of_fmap
          by (rewrite HP; by apply list_elem_of_fmap_2).
        rewrite (NoDup_fmap_inj_on Js.toLowerCase commonSkills x a
                   commonSkills_lower_NoDup Hx (extract_elem _ _ Ha') Ha).
        done. }
    subst A B. unfold extractSkillsFromText in *.
    apply filter_ext_elem. intros x Hx.
    specialize (Hmem x Hx). rewrite !list_elem_of_filter in Hmem. tauto.
  - intros [<- HA]. by rewrite score_self.
Qed.

End ScorerMore.

Lemma score_above_threshold_witness :
  Number.gt (calculateMatchScore
               (js <$> ["a"; "b"; "c"; "d"; "e"; "f"; "g"; "h"; "i"; "j"])
               (js <$> ["A"]))
            Number.lit_0_1 = true ↔
  (10 < 10 * 1)%nat.
Proof.
  exact (score_above_threshold
           (js <$> ["a"; "b"; "c"; "d"; "e"; "f"; "g"; "h"; "i"; "j"])
           (js <$> ["A"]) eq_refl eq_refl).
Defined.

Lemma score_order_and_case_witness :
  calculateMatchScore (js <$> ["React"; "Git"; "AWS"])
                      (js <$> ["git"; "Docker"]) =
  calculateMatchScore (js <$> ["aws"; "REACT"; "git"])
                      (js <$> ["DOCKER"; "GIT"]).
Proof.
  apply score_order_and_case.
  - change ((js <$> ["react"; "git"]) ++ (js <$> ["aws"]) ≡ₚ
            (js <$> ["aws"]) ++ (js <$> ["react"; "git"])).
    apply Permutation_app_comm.
  - change ((js <$> ["git"; "docker"]) ≡ₚ (js <$> ["docker"; "git"])).
    apply Permutation_swap.
Defined.

(** ** The ranker, beyond the claims *)

Section RankerMore.
Context {engine : Js.Unicode}.
Local Open Scope Q_scope.

(** X6: the ranker returns as many entries as pass the threshold, up to 10,
    and they are the best: every entry that passes the threshold and is left
    out scores no more than any entry returned. *)
Theorem top_are_the_best (userSkills : list (list N))
    (allJobs : list Job.record) :
  let kept := filter (λ e, Number.lit_0_1 < matchScore e)
                     (recommendations userSkills allJobs) in
  let top := topRecommendations userSkills allJobs in
  length top = Nat.min 10 (length kept) ∧
  ∃ rest, (top ++ rest)%list ≡ₚ kept ∧
          ∀ e e', e ∈ top → e' ∈ rest → matchScore e' <= matchScore e.
Proof.
  intros kept top. subst top. unfold topRecommendations.
  rewrite kept_filter. fold kept.
  set (sorted := Array_sort byScoreDescending kept).
  split.
  - rewrite length_take. unfold sorted.
    by rewrite (Permutation_length (Array_sort_Permutation _ kept)).
  - exists (drop 10 sorted). split.
    + rewrite take_drop. apply Array_sort_Permutation.
    + intros e e' He He'.
      pose proof (sorted_by_score kept) as Hs. fold sorted in Hs.
      rewrite <- (take_drop 10 sorted) in Hs.
      by apply (StronglySorted_app_1_elem_of _ _ _ _ _ Hs).
Qed.

Lemma matchPercentage_recommendation userSkills (job : Job.record) :
  matchPercentage (recommendation userSkills job) =
  Number.Math_round
    (Number.mul (calculateMatchScore userSkills (Job.skills job)) 100).
Proof. unfold matchPercentage. by rewrite recommendation_matchPercentage. Qed.

Lemma percentage_mono (s s' : Q) :
  s <= s' →
  Number.Math_round (Number.mul s 100) <=
  Number.Math_round (Number.mul s' 100).
Proof.
  intros H. unfold Number.Math_round, Number.mul. rewrite <- Zle_Qle.
  apply Qfloor_resp_le.
  assert (Number.binary64 (s * 100) <= Number.binary64 (s' * 100))
    by (apply binary64_mono; lra).
  lra.
Qed.

Lemma StronglySorted_weaken_on {A} (P : A → Prop) (R S : A → A → Prop)
    (l : list A) :
  Forall P l → (∀ a b, P a → P b → R a b → S a b) →
  StronglySorted R l → StronglySorted S l.
Proof.
  intros HP HRS. induction 1 as [|x l _ IH Hx]; [constructor|].
  apply Forall_cons in HP as [Px HP]. constructor; [by apply IH|].
  rewrite Forall_forall in *. eauto.
Qed.

(** X7: the percentages the ranker returns agree with its order: along the
    returned list they never increase, and each lies between 10 and 100. *)
Theorem percentages_follow_scores (userSkills : list (list N))
    (allJobs : list Job.record) :
  let top := topRecommendations userSkills allJobs in
  StronglySorted (λ a b, matchPercentage b <= matchPercentage a) top ∧
  (∀ e, e ∈ top → 10 <= matchPercentage e ∧ matchPercentage e <= 100).
Proof.
  intros top.
  assert (Hpct : Forall (λ e, matchPercentage e =
                   Number.Math_round (Number.mul (matchScore e) 100)) top).
  { apply Forall_forall. intros e He%top_are_recommendations.
    apply list_elem_of_fmap in He as (job & -> & _).
    by rewrite matchPercentage_recommendation, matchScore_recommendation. }
  split.
  - eapply (StronglySorted_weaken_on _ _ _ _ Hpct).
    + intros a b Ha Hb Hab. cbv beta in Ha, Hb. rewrite Ha, Hb.
      apply percentage_mono, Hab.
    + unfold top, topRecommendations.
      apply StronglySorted_take, sorted_by_score.
  - intros e He. rewrite (proj1 (Forall_forall _ _) Hpct e He). split.
    + assert (Hs : Number.lit_0_1 <= matchScore e).
      { unfold top, topRecommendations in He. apply subseteq_take in He.
        rewrite Array_sort_Permutation in He.
        apply list_elem_of_filter in He as [He%Is_true_true%gt_lt _]. lra. }
      apply percentage_mono in Hs.
      eapply Qle_trans; [|exact Hs]. by vm_compute.
    + assert (Hs : matchScore e <= 1).
      { apply top_are_recommendations in He.
        apply list_elem_of_fmap in He as (job & -> & _).
        rewrite matchScore_recommendation. apply score_unit_interval. }
      apply percentage_mono in Hs.
      eapply Qle_trans; [exact Hs|]. by vm_compute.
Qed.

End RankerMore.

(** ** Posting a job *)

Section PostJob.
Context {engine : Js.Unicode}.

Lemma append_eq_append (x y s post : list N) :
  x ++ y = s ++ post →
  (∃ r, x = s ++ r) ∨
  (∃ s2, s = x ++ s2 ∧ y = s2 ++ post).
Proof.
  revert s. induction x as [|c x IH]; intros s H.
  - right. exists s. by rewrite append_nil in *.
  - destruct s as [|d s].
    + left. by exists (c :: x).
    + rewrite !append_cons in H. injection H as -> H.
      destruct (IH _ H) as [[r ->] | (s2 & -> & ->)].
      * left. by exists r.
      * right. by exists s2.
Qed.

Lemma suffix_in_nonempty_suffixes (p s1 : list N) :
  s1 ≠ [] → s1 ∈ nonempty_suffixes (p ++ s1).
Proof.
  intros Hs. induction p as [|c p IH].
  - rewrite append_nil. destruct s1; [done|]. simpl. by left.
  - rewrite append_cons. simpl. by right.
Qed.

(** A string that occurs in [a ++ b] occurs in [a], or in [b], or lies across
    the seam: it starts with a non-empty end of [a] and ends with a non-empty
    start of [b]. *)
Lemma includes_append_cases (a b s : list N) :
  Js.includes (a ++ b) s = true →
  Js.includes a s = true ∨ Js.includes b s = true ∨
  ∃ s1 s2, s = s1 ++ s2 ∧ s1 ≠ [] ∧ s2 ≠ [] ∧
           (∃ p, a = p ++ s1) ∧ Js.startsWith b s2 = true.
Proof.
  intros (pre & post & H)%includes_append. revert pre H.
  induction a as [|c a IH]; intros pre H.
  - right; left. apply includes_append. exists pre, post.
    by rewrite append_nil in H.
  - destruct pre as [|d pre].
    + rewrite append_nil in H.
      apply append_eq_append in H as [[r Hr] | (s2 & -> & ->)].
      * left. apply includes_append. exists [], r. by rewrite append_nil.
      * destruct s2 as [|e s2].
        -- left. apply includes_append. exists [], [].
           by rewrite append_nil, !append_empty_r.
        -- right; right. exists (c :: a), (e :: s2).
           repeat split; [done..| by exists [] |].
           apply startsWith_append. by exists post.
    + rewrite !append_cons in H. injection H as -> H.
      destruct (IH _ H) as [Ha | [Hb | (s1 & s2 & -> & N1 & N2 & [p ->] & Hs)]].
      * left. apply includes_append in Ha as (p & q & ->).
        apply includes_append. by exists (d :: p), q.
      * by right; left.
      * right; right. exists s1, s2. repeat split; [done..| |done].
        by exists (d :: p).
Qed.

Lemma no_seam_left (a b s : list N) :
  Js.includes a s = false → no_end_starts a s = true →
  Js.includes (a ++ b) s = Js.includes b s.
Proof.
  intros Ha Hends. destruct (Js.includes b s) eqn:Hb.
  - apply includes_append in Hb as (p & q & ->).
    apply includes_append. exists (a ++ p), q.
    by rewrite append_assoc.
  - destruct (Js.includes (a ++ b) s) eqn:Hab; [|done].
    apply includes_append_cases in Hab
      as [? | [? | (s1 & s2 & -> & N1 & N2 & [p ->] & Hs)]];
      [congruence..|].
    unfold no_end_starts in Hends. rewrite forallb_forall in Hends.
    specialize (Hends s1). rewrite <- list_elem_of_In in Hends.
    specialize (Hends (suffix_in_nonempty_suffixes p s1 N1)).
    apply negb_true_iff in Hends.
    assert (Js.startsWith (s1 ++ s2) s1 = true)
      by (apply startsWith_append; by exists s2).
    congruence.
Qed.

Lemma no_seam_right (a b s : list N) :
  Js.includes b s = false → no_start_ends b s = true →
  Js.includes (a ++ b) s = Js.includes a s.
Proof.
  intros Hb Hends. destruct (Js.includes a s) eqn:Ha.
  - apply includes_append in Ha as (p & q & ->).
    apply includes_append. exists p, (q ++ b).
    by rewrite !append_assoc.
  - destruct (Js.includes (a ++ b) s) eqn:Hab; [|done].
    apply includes_append_cases in Hab
      as [? | [? | (s1 & s2 & -> & N1 & N2 & _ & Hs)]];
      [congruence..|].
    unfold no_start_ends in Hends. rewrite forallb_forall in Hends.
    specialize (Hends s2). rewrite <- list_elem_of_In in Hends.
    specialize (Hends (suffix_in_nonempty_suffixes s1 s2 N2)).
    apply negb_true_iff in Hends. congruence.
Qed.

Lemma undefined_left_no_seam :
  Forall (λ skill,
            Js.includes (js "undefined ") (Js.toLowerCase skill) = false ∧
            no_end_starts (js "undefined ") (Js.toLowerCase skill) = true)
         commonSkills.
Proof. repeat constructor. Qed.

Lemma undefined_right_no_seam :
  Forall (λ skill,
            Js.includes (js " undefined") (Js.toLowerCase skill) = false ∧
            no_start_ends (js " undefined") (Js.toLowerCase skill) = true)
         commonSkills.
Proof. repeat constructor. Qed.

Lemma lower_undefined_left (d : list N) :
  Js.toLowerCase (to_string None ++ js " " ++ to_string (Some d))
  = js "undefined " ++ Js.toLowerCase d.
Proof.
  change (to_string None ++ js " " ++ to_string (Some d))
    with (js "undefined" ++ 32%N :: d).
  by rewrite toLowerCase_space.
Qed.

Lemma lower_undefined_right (r : list N) :
  Js.toLowerCase (to_string (Some r) ++ js " " ++ to_string None)
  = Js.toLowerCase r ++ js " undefined".
Proof.
  change (to_string (Some r) ++ js " " ++ to_string None)
    with (r ++ 32%N :: js "undefined").
  by rewrite toLowerCase_space.
Qed.

(** X8: a job posted without its requirements, or without its description,
    is stored with exactly the skills of the field it has: the text
    [undefined] that stands for the missing field adds no skill, alone or
    across the blank that joins the fields. *)
Theorem posted_skills_missing_field :
  (∀ description,
     posted_skills None (Some description) =
     extractSkillsFromText description) ∧
  (∀ requirements,
     posted_skills (Some requirements) None =
     extractSkillsFromText requirements) ∧
  posted_skills None None = [].
Proof.
  split; [|split].
  - intros d. unfold posted_skills, extractSkillsFromText.
    rewrite lower_undefined_left.
    apply filter_ext_elem. intros skill Hskill.
    destruct (proj1 (Forall_forall _ _) undefined_left_no_seam skill Hskill)
      as [H1 H2].
    by rewrite (no_seam_left _ _ _ H1 H2).
  - intros r. unfold posted_skills, extractSkillsFromText.
    rewrite lower_undefined_right.
    apply filter_ext_elem. intros skill Hskill.
    destruct (proj1 (Forall_forall _ _) undefined_right_no_seam skill Hskill)
      as [H1 H2].
    by rewrite (no_seam_right _ _ _ H1 H2).
  - vm_compute. reflexivity.
Qed.

Lemma occurs_left (a b : list N) :
  occurs_ignoring_case a (a ++ 32%N :: b).
Proof.
  exists [], (32%N :: Js.toLowerCase b). by rewrite toLowerCase_space.
Qed.

Lemma occurs_right (a b : list N) :
  occurs_ignoring_case b (a ++ 32%N :: b).
Proof.
  exists (Js.toLowerCase a ++ [32%N]), [].
  by rewrite toLowerCase_space, append_empty_r, append_assoc.
Qed.

Lemma extract_sublist_of (text text' : list N) :
  occurs_ignoring_case text text' →
  extractSkillsFromText text `sublist_of` extractSkillsFromText text'.
Proof.
  intros Hocc%includes_occurs. unfold extractSkillsFromText.
  apply filter_sublist_impl. intros skill _ H%Is_true_true.
  apply Is_true_true. by eapply includes_trans.
Qed.

(** X9: a posted job is stored with every skill its requirements hold and
    every skill its description holds, in the order of the vocabulary and
    with no skill in two spellings; it can be stored with a skill neither
    field holds, read across the blank that joins them. *)
Theorem posted_skills_cover_both_fields :
  (∀ requirements description,
     extractSkillsFromText requirements `sublist_of`
       posted_skills (Some requirements) (Some description) ∧
     extractSkillsFromText description `sublist_of`
       posted_skills (Some requirements) (Some description) ∧
     NoDup (Js.toLowerCase <$>
              posted_skills (Some requirements) (Some description))) ∧
  (∃ requirements description skill,
     skill ∈ posted_skills (Some requirements) (Some description) ∧
     (skill ∉ extractSkillsFromText requirements) ∧
     (skill ∉ extractSkillsFromText description)).
Proof.
  split.
  - intros r d. unfold posted_skills.
    change (to_string (Some r) ++ js " " ++ to_string (Some d))
      with (r ++ 32%N :: d).
    split; [|split].
    + apply extract_sublist_of, occurs_left.
    + apply extract_sublist_of, occurs_right.
    + apply extract_lower_NoDup.
  - exists (js "REST"), (js "API"), (js "REST API"). vm_compute.
    split; [by left|]. split; apply not_elem_of_nil.
Qed.

End PostJob.

(** ** The routes on the store *)

Section Routes.
Context {engine : Js.Unicode} {store : Mongoose}.

Lemma find_snoc {A} (f : A → bool) (l : list A) (x : A) :
  List.find f (l ++ [x]) =
  match List.find f l with
  | Some y => Some y
  | None => if f x then Some x else None
  end.
Proof.
  induction l as [|a l IH]; simpl; [done|]. by destruct (f a).
Qed.

Lemma find_none_iff {A} (f : A → bool) (l : list A) :
  List.find f l = None ↔ ∀ x, x ∈ l → f x = false.
Proof.
  split.
  - intros H x Hx%list_elem_of_In. by eapply find_none.
  - intros H. induction l as [|a l IH]; simpl; [done|].
    rewrite (H a) by by left. apply IH. intros x Hx. apply H. by right.
Qed.

(** X10: a job that was posted is found under its id, as it was stored, with
    the poster's address and the extracted skills; the jobs under other ids
    are found as before, a request under a string that is no id is answered
    as before, and posting touches no other collection. *)
Theorem post_then_get (req_user_email _id : list N) (now : Z)
    (title company location salary type description requirements
       companyWebsite : option (list N)) (st : Portal.Store) :
  castObjectId _id = Some _id →
  Portal.Job_findById _id st = Some None →
  let posted := Portal.post_job req_user_email _id now title company location
                  salary type description requirements companyWebsite st in
  ∃ job,
    Portal.payload posted.1 = Portal.Posted job ∧
    Job.skills job = posted_skills requirements description ∧
    Job.postedBy job = Some req_user_email ∧
    (Portal.get_job _id posted.2).1 =
      {| Portal.status := 200; Portal.success := true;
         Portal.message := None; Portal.payload := Portal.Posted job |} ∧
    (∀ id, castObjectId id ≠ Some _id →
       (Portal.get_job id posted.2).1 = (Portal.get_job id st).1) ∧
    Portal.users posted.2 = Portal.users st ∧
    Portal.resumes posted.2 = Portal.resumes st ∧
    Portal.applications posted.2 = Portal.applications st.
Proof.
  intros Hid Hfresh posted. unfold Portal.post_job in posted.
  eexists. split; [reflexivity|]. split; [done|]. split; [done|].
  split; [|split; [|done]].
  - unfold Portal.get_job, Portal.Job_findById in *. subst posted. simpl.
    rewrite Hid in *. simpl in *. injection Hfresh as Hfresh.
    rewrite find_snoc, Hfresh. simpl. by rewrite bool_decide_eq_true_2.
  - intros id Hne. unfold Portal.get_job, Portal.Job_findById.
    subst posted. simpl. destruct (castObjectId id) as [i|]; [|done]. simpl.
    rewrite find_snoc.
    destruct (List.find _ (Portal.jobs st)); [done|]. simpl.
    rewrite bool_decide_eq_false_2; [done|]. congruence.
Qed.

(** X11: a second application of a user to a job is always refused and
    changes nothing, whatever the first attempt met and whenever the second
    is made: with status 400 under an id of the store, and with status 500,
    as the first, under a string that is no id. *)
Theorem apply_twice_refused (st : Portal.Store) (req_user_id jobId : list N)
    (now now' : Z) :
  let first := Portal.apply_to_job req_user_id now jobId st in
  (is_Some (castObjectId jobId) →
   Portal.apply_to_job req_user_id now' jobId first.2 =
     ({| Portal.status := 400; Portal.success := false;
         Portal.message := Some (js "Already applied to this job.");
         Portal.payload := Portal.Nothing |}, first.2)) ∧
  (castObjectId jobId = None →
   first.2 = st ∧
   Portal.status first.1 = 500%Z ∧
   Portal.apply_to_job req_user_id now' jobId first.2 =
     ({| Portal.status := 500; Portal.success := false;
         Portal.message := Some (js "Error applying to job");
         Portal.payload := Portal.Nothing |}, st)).
Proof.
  intros first. subst first. split.
  - intros [job_id Hid]. unfold Portal.apply_to_job at 2 3. rewrite Hid.
    destruct (Portal.Application_findOne job_id req_user_id st) eqn:E; simpl.
    + unfold Portal.apply_to_job. by rewrite Hid, E.
    + unfold Portal.apply_to_job, Portal.Application_findOne in *.
      rewrite Hid. simpl.
      rewrite find_snoc, E. simpl. by rewrite !bool_decide_eq_true_2.
  - intros Hid. unfold Portal.apply_to_job. by rewrite Hid.
Qed.

(** X12: the route keeps the applications free of repeats: if no two stored
    applications are of one user to one job, none are after a request. *)
Theorem apply_keeps_unique (st : Portal.Store) (req_user_id jobId : list N)
    (now : Z) :
  NoDup ((λ a, (Portal.jobId a, Portal.userId a)) <$> Portal.applications st) →
  NoDup ((λ a, (Portal.jobId a, Portal.userId a)) <$>
           Portal.applications
             (Portal.apply_to_job req_user_id now jobId st).2).
Proof.
  intros Hnd. unfold Portal.apply_to_job.
  destruct (castObjectId jobId) as [job_id|]; [|done].
  destruct (Portal.Application_findOne job_id req_user_id st) eqn:E; [done|].
  simpl. rewrite fmap_app. apply NoDup_app. split; [done|].
  split; [|apply NoDup_singleton].
  intros [j u] (a & [= -> ->] & Ha)%list_elem_of_fmap Hin. simpl in Hin.
  apply list_elem_of_singleton in Hin as [= Hj Hu].
  unfold Portal.Application_findOne in E.
  pose proof (proj1 (find_none_iff _ _) E a Ha) as Hf. simpl in Hf.
  by rewrite Hj, Hu, !bool_decide_eq_true_2 in Hf.
Qed.

(** X13: the route reads the applications only: it looks up neither the job
    nor the user, so an application under an id that no stored job has is
    accepted like any other.  Two stores with the same applications get the
    same reply and hold the same applications afterwards. *)
Theorem apply_reads_applications_only (st st' : Portal.Store)
    (req_user_id jobId : list N) (now : Z) :
  Portal.applications st = Portal.applications st' →
  (Portal.apply_to_job req_user_id now jobId st).1 =
  (Portal.apply_to_job req_user_id now jobId st').1 ∧
  Portal.applications (Portal.apply_to_job req_user_id now jobId st).2 =
  Portal.applications (Portal.apply_to_job req_user_id now jobId st').2 ∧
  (∀ job_id,
     castObjectId jobId = Some job_id →
     Portal.Application_findOne job_id req_user_id st = None →
     Portal.status (Portal.apply_to_job req_user_id now jobId st).1 = 200%Z).
Proof.
  intros H.
  assert (∀ j, Portal.Application_findOne j req_user_id st' =
               Portal.Application_findOne j req_user_id st) as E
    by (intros j; unfold Portal.Application_findOne; by rewrite H).
  unfold Portal.apply_to_job.
  destruct (castObjectId jobId) as [job_id|] eqn:Hid; [|done].
  rewrite E. split; [|split].
  - by destruct (Portal.Application_findOne job_id req_user_id st).
  - destruct (Portal.Application_findOne job_id req_user_id st); simpl;
      by rewrite H.
  - intros ? [= <-] ->. done.
Qed.

Lemma view_lookup (st : Portal.Store) (id : list N) :
  Db.users (Portal.view st) !! id =
  Portal.profile <$> Portal.User_findById id st.
Proof.
  unfold Portal.view, Portal.User_findById. simpl.
  induction (Portal.users st) as [|u l IH]; [done|].
  rewrite fmap_cons. simpl. rewrite lookup_insert.
  destruct (decide (Portal.user_id u = id)) as [E|NE].
  - by rewrite bool_decide_eq_true_2.
  - by rewrite bool_decide_eq_false_2.
Qed.

Lemma find_update_first (id id' : list N) parsedData (l : list Portal.user) :
  Portal.profile <$>
    List.find (λ u, bool_decide (Portal.user_id u = id'))
              (Portal.update_first id parsedData l) =
  if decide (id = id')
  then (λ _, {| User.parsedResume := Some parsedData |}) <$>
         List.find (λ u, bool_decide (Portal.user_id u = id')) l
  else Portal.profile <$>
         List.find (λ u, bool_decide (Portal.user_id u = id')) l.
Proof.
  induction l as [|u l IH]; simpl; [by destruct (decide _)|].
  destruct (decide (Portal.user_id u = id)) as [E|NE].
  - rewrite (bool_decide_eq_true_2 _ E). simpl.
    destruct (decide (id = id')) as [<-|NE'].
    + by rewrite !(bool_decide_eq_true_2 _ E).
    + rewrite !bool_decide_eq_false_2 by congruence. done.
  - rewrite (bool_decide_eq_false_2 _ NE). simpl.
    destruct (decide (Portal.user_id u = id')) as [E'|NE'].
    + rewrite !(bool_decide_eq_true_2 _ E').
      rewrite decide_False by congruence. done.
    + rewrite !(bool_decide_eq_false_2 _ NE'). apply IH.
Qed.

Lemma recommendations_after_upload (st : Portal.Store)
    (req_user_id : list N) (file : Portal.File) (now : Z)
    (user : Portal.user) :
  Portal.User_findById req_user_id st = Some user →
  (Portal.job_recommendations req_user_id
     (Portal.upload_resume req_user_id (Some file) now st).2).1 =
    {| status := 200; success := true;
       res_recommendations :=
         Some (topRecommendations parsedData_skills (Portal.jobs st));
       res_userSkills := Some parsedData_skills;
       message := None |}.
Proof.
  intros Hu. unfold Portal.job_recommendations. simpl.
  unfold job_recommendations, mbind, Db_bind, Db.bind, Db.User_findById.
  rewrite view_lookup. unfold Portal.upload_resume. simpl.
  unfold Portal.User_findById, Portal.User_findByIdAndUpdate in *. simpl.
  rewrite find_update_first, decide_True by done. rewrite Hu. done.
Qed.

(** X14: after a user has uploaded a resume, the recommendations are those
    for the five skills of the mock, whatever file was uploaded: the answer
    to the next request for recommendations is the ranking of the stored jobs
    against these skills.  A request without a file is refused with status
    400 and changes nothing. *)
Theorem upload_then_recommend (st : Portal.Store) (req_user_id : list N)
    (file : Portal.File) (now : Z) (user : Portal.user) :
  Portal.User_findById req_user_id st = Some user →
  let uploaded := Portal.upload_resume req_user_id (Some file) now st in
  Portal.status uploaded.1 = 200%Z ∧
  (Portal.job_recommendations req_user_id uploaded.2).1 =
    {| status := 200; success := true;
       res_recommendations :=
         Some (topRecommendations parsedData_skills (Portal.jobs st));
       res_userSkills := Some parsedData_skills;
       message := None |} ∧
  Portal.upload_resume req_user_id None now st =
    ({| Portal.status := 400; Portal.success := false;
        Portal.message := Some (js "No file uploaded");
        Portal.payload := Portal.Nothing |}, st).
Proof.
  intros Hu uploaded. split; [done|]. split; [|done].
  by eapply recommendations_after_upload.
Qed.

End Routes.

Lemma post_then_get_witness :
  let st := {| Portal.users := []; Portal.jobs := sampleJobs;
               Portal.resumes := []; Portal.applications := [] |} in
  ∃ job,
    (Portal.get_job (js "65f1c0de65f1c0de65f1c0de")
       (Portal.post_job (js "hr@example.com") (js "65f1c0de65f1c0de65f1c0de")
          0 (Some (js "Engineer")) None None None None
          (Some (js "We use React")) None None st).2).1 =
      {| Portal.status := 200; Portal.success := true;
         Portal.message := None; Portal.payload := Portal.Posted job |} ∧
    Job.skills job = js <$> ["React"].
Proof.
  intros st.
  assert (castObjectId (js "65f1c0de65f1c0de65f1c0de") =
          Some (js "65f1c0de65f1c0de65f1c0de")) as Hid
    by (vm_compute; reflexivity).
  assert (Portal.Job_findById (js "65f1c0de65f1c0de65f1c0de") st = Some None)
    as Hfresh by (vm_compute; reflexivity).
  destruct (post_then_get (js "hr@example.com")
              (js "65f1c0de65f1c0de65f1c0de") 0 (Some (js "Engineer")) None
              None None None (Some (js "We use React")) None None st
              Hid Hfresh)
    as (job & _ & Hs & _ & Hget & _).
  exists job. split; [exact Hget|]. rewrite Hs. vm_compute. reflexivity.
Defined.

Lemma apply_twice_refused_witness :
  let st := {| Portal.users := []; Portal.jobs := sampleJobs;
               Portal.resumes := []; Portal.applications := [] |} in
  Portal.status
    (Portal.apply_to_job user_1 5 (js "65F1C0DE65F1C0DE65F1C0DE")
       (Portal.apply_to_job user_1 3 (js "65f1c0de65f1c0de65f1c0de")
          st).2).1 = 400%Z ∧
  Portal.status
    (Portal.apply_to_job user_1 5 (js "no-such-job")
       (Portal.apply_to_job user_1 3 (js "no-such-job") st).2).1 = 500%Z.
Proof.
  intros st. split.
  - change (Portal.apply_to_job user_1 3 (js "65f1c0de65f1c0de65f1c0de") st)
      with (Portal.apply_to_job user_1 3 (js "65F1C0DE65F1C0DE65F1C0DE") st).
    rewrite (proj1 (apply_twice_refused st user_1
                      (js "65F1C0DE65F1C0DE65F1C0DE") 3 5));
      [reflexivity | eexists; vm_compute; reflexivity].
  - assert (castObjectId (js "no-such-job") = None) as Hid
      by (vm_compute; reflexivity).
    destruct (proj2 (apply_twice_refused st user_1 (js "no-such-job") 3 5)
                Hid) as (_ & _ & ->).
    reflexivity.
Defined.

Lemma apply_keeps_unique_witness :
  NoDup ((λ a, (Portal.jobId a, Portal.userId a)) <$>
    Portal.applications
      (Portal.apply_to_job user_1 5 (js "65f1c0de65f1c0de65f1c0de")
         (Portal.apply_to_job user_1 3 (js "65f1c0de65f1c0de65f1c0de")
            {| Portal.users := []; Portal.jobs := [];
               Portal.resumes := []; Portal.applications := [] |}).2).2).
Proof. apply apply_keeps_unique, apply_keeps_unique. constructor. Defined.

Lemma apply_reads_applications_only_witness :
  let st := {| Portal.users := []; Portal.jobs := sampleJobs;
               Portal.resumes := []; Portal.applications := [] |} in
  Portal.status
    (Portal.apply_to_job user_1 3 (js "65f1c0de65f1c0de65f1c0de") st).1
    = 200%Z ∧
  Portal.status (Portal.get_job (js "65f1c0de65f1c0de65f1c0de") st).1
    = 404%Z.
Proof.
  intros st. split; [|vm_compute; reflexivity].
  apply (proj2 (proj2 (apply_reads_applications_only st
           {| Portal.users := []; Portal.jobs := [];
              Portal.resumes := []; Portal.applications := [] |}
           user_1 (js "65f1c0de65f1c0de65f1c0de") 3 eq_refl))
           (js "65f1c0de65f1c0de65f1c0de")); vm_compute; reflexivity.
Defined.

Lemma upload_then_recommend_witness :
  let st := {| Portal.users :=
                 [ {| Portal.user_id := user_1; Portal.name := js "Ann";
                      Portal.email := js "ann@example.com";
                      Portal.password := js "h"; Portal.role := js "seeker";
                      Portal.profile := {| User.parsedResume := None |} |} ];
               Portal.jobs := sampleJobs; Portal.resumes := [];
               Portal.applications := [] |} in
  let file := {| Portal.originalname := js "cv.pdf";
                 Portal.path := js "uploads/1.pdf"; Portal.size := 10 |} in
  res_userSkills
    (Portal.job_recommendations user_1
       (Portal.upload_resume user_1 (Some file) 0 st).2).1 =
  Some parsedData_skills.
Proof.
  intros st file.
  by rewrite (proj1 (proj2 (upload_then_recommend st user_1 file 0 _
                              eq_refl))).
Defined.

(** ** Accounts *)

Section Accounts.
Context {engine : Js.Unicode} `{Crypto}.

Lemma findOne_none_email (st : Portal.Store) (email : list N) :
  Portal.User_findOne email st = None →
  email ∉ Portal.email <$> Portal.users st.
Proof.
  unfold Portal.User_findOne. intros Hf (u & -> & Hu)%list_elem_of_fmap.
  pose proof (proj1 (find_none_iff _ _) Hf u Hu) as Hb. simpl in Hb.
  by rewrite bool_decide_eq_true_2 in Hb.
Qed.

(** X15: signing up keeps the addresses of the accounts distinct, and an
    address that is taken is refused with status 400 and no change. *)
Theorem signup_keeps_emails_unique (st : Portal.Store)
    (_id salt : list N) (now : Z) (name email password role : list N) :
  NoDup (Portal.email <$> Portal.users st) →
  let signed := Portal.signup _id salt now name email password role st in
  NoDup (Portal.email <$> Portal.users signed.2) ∧
  (email ∈ Portal.email <$> Portal.users st →
   signed = ({| Portal.status := 400; Portal.success := false;
                Portal.message := Some (js "Email already exists");
                Portal.payload := Portal.Nothing |}, st)).
Proof.
  intros Hnd signed. subst signed. unfold Portal.signup.
  destruct (Portal.User_findOne email st) eqn:E.
  - split; done.
  - apply findOne_none_email in E. split.
    + destruct (jwt_sign _ _ _ _); simpl; rewrite fmap_app;
        (apply NoDup_app; split; [done|]; split; [|apply NoDup_singleton]);
        intros x Hx ->%list_elem_of_singleton; done.
    + intros Hin. done.
Qed.

(** X16: an account that was created can log in: after a sign-up with a free
    address, a login with the same address and password, once the token is
    signed, answers with the session of that account and changes nothing.
    This holds also when the sign-up itself answered with an error because
    its own token could not be signed. *)
Theorem signup_then_login (st : Portal.Store)
    (_id salt : list N) (now now' : Z) (name email password role token : list N) :
  Portal.User_findOne email st = None →
  bcrypt_compare password (bcrypt_hash password salt) = true →
  jwt_sign _id email role now' = Some token →
  let signed := Portal.signup _id salt now name email password role st in
  Portal.login now' email password signed.2 =
    ({| Portal.status := 200; Portal.success := true;
        Portal.message := None;
        Portal.payload := Portal.Session token name email role |}, signed.2).
Proof.
  intros Hfree Hcmp Hsign signed.
  assert (Hfound : Portal.User_findOne email signed.2 =
    Some {| Portal.user_id := _id; Portal.name := name;
            Portal.email := email;
            Portal.password := bcrypt_hash password salt;
            Portal.role := role;
            Portal.profile := {| User.parsedResume := None |} |}).
  { subst signed. unfold Portal.signup. rewrite Hfree.
    unfold Portal.User_findOne in *.
    destruct (jwt_sign _id email role now); simpl;
      rewrite find_snoc, Hfree; simpl; by rewrite bool_decide_eq_true_2. }
  unfold Portal.login. rewrite Hfound. simpl. by rewrite Hcmp, Hsign.
Qed.

(** X17: logging in never changes the store, and it refuses an unknown
    address and a wrong password with one and the same reply. *)
Theorem login_refusals_alike (st : Portal.Store) (now : Z)
    (email password : list N) :
  (Portal.login now email password st).2 = st ∧
  ((Portal.User_findOne email st = None ∨
    ∃ user, Portal.User_findOne email st = Some user ∧
            bcrypt_compare password (Portal.password user) = false) →
   (Portal.login now email password st).1 =
     {| Portal.status := 400; Portal.success := false;
        Portal.message := Some (js "Invalid credentials");
        Portal.payload := Portal.Nothing |}).
Proof.
  unfold Portal.login. split.
  - destruct (Portal.User_findOne email st) as [user|]; [|done].
    destruct (bcrypt_compare _ _); [|done]. by destruct (jwt_sign _ _ _ _).
  - intros [-> | (user & -> & ->)]; done.
Qed.

(** X18: the sign-up stores the account before it signs the token: when the
    token cannot be signed the reply is the error 500, yet the account
    exists, and a second sign-up with the address is refused as taken. *)
Theorem signup_stores_before_token (st : Portal.Store)
    (_id salt : list N) (now : Z) (name email password role : list N) :
  Portal.User_findOne email st = None →
  jwt_sign _id email role now = None →
  let signed := Portal.signup _id salt now name email password role st in
  Portal.status signed.1 = 500%Z ∧
  (∃ user, Portal.User_findOne email signed.2 = Some user ∧
           Portal.user_id user = _id) ∧
  (∀ _id' salt' now' name' password' role',
     Portal.signup _id' salt' now' name' email password' role' signed.2 =
       ({| Portal.status := 400; Portal.success := false;
           Portal.message := Some (js "Email already exists");
           Portal.payload := Portal.Nothing |}, signed.2)).
Proof.
  intros Hfree Hsign signed.
  assert (Hfound : Portal.User_findOne email signed.2 =
    Some {| Portal.user_id := _id; Portal.name := name;
            Portal.email := email;
            Portal.password := bcrypt_hash password salt;
            Portal.role := role;
            Portal.profile := {| User.parsedResume := None |} |}).
  { subst signed. unfold Portal.signup. rewrite Hfree, Hsign.
    unfold Portal.User_findOne in *. simpl.
    rewrite find_snoc, Hfree. simpl. by rewrite bool_decide_eq_true_2. }
  split; [|split].
  - subst signed. unfold Portal.signup. by rewrite Hfree, Hsign.
  - eexists. split; [exact Hfound | done].
  - intros. unfold Portal.signup at 1. by rewrite Hfound.
Qed.

(** X19: a new account has no resume: the recommendations of a user who has
    just signed up, under an id no stored user has, are the empty list with
    the message that no resume was uploaded. *)
Theorem signup_then_recommend (st : Portal.Store)
    (_id salt : list N) (now : Z) (name email password role : list N) :
  Portal.User_findOne email st = None →
  Portal.User_findById _id st = None →
  let signed := Portal.signup _id salt now name email password role st in
  (Portal.job_recommendations _id signed.2).1 =
    {| status := 200; success := true;
       res_recommendations := Some []; res_userSkills := None;
       message := Some (js "No resume uploaded yet") |}.
Proof.
  intros Hfree Hid signed.
  unfold Portal.job_recommendations. simpl.
  unfold job_recommendations, mbind, Db_bind, Db.bind, Db.User_findById.
  rewrite view_lookup. subst signed. unfold Portal.signup. rewrite Hfree.
  unfold Portal.User_findById in *.
  destruct (jwt_sign _ _ _ _); simpl; rewrite find_snoc, Hid; simpl;
    by rewrite bool_decide_eq_true_2.
Qed.

End Accounts.

Lemma signup_then_login_witness :
  let st := {| Portal.users := []; Portal.jobs := [];
               Portal.resumes := []; Portal.applications := [] |} in
  Portal.status
    (@Portal.login example_crypto 9 (js "ann@example.com") (js "secret")
       (@Portal.signup example_crypto user_1 (js "s1") 7 (js "Ann") (js "ann@example.com")
          (js "secret") (js "seeker") st).2).1 = 200%Z.
Proof.
  intros st.
  by rewrite (@signup_then_login example_crypto st user_1 (js "s1") 7 9 (js "Ann")
                (js "ann@example.com") (js "secret") (js "seeker") (user_1 ++ js "ann@example.com")
                eq_refl eq_refl eq_refl).
Defined.


Lemma signup_keeps_emails_unique_witness :
  NoDup (Portal.email <$> Portal.users
    (@Portal.signup example_crypto user_2 (js "s1") 7 (js "Bob") (js "bob@example.com")
       (js "pw") (js "recruiter") example_store).2).
Proof.
  apply (@signup_keeps_emails_unique example_crypto example_store).
  apply (bool_decide_unpack _). vm_compute. exact I.
Defined.

Lemma login_refusals_alike_witness :
  (@Portal.login example_crypto 9 (js "nobody@example.com") (js "secret")
     example_store).1 =
  (@Portal.login example_crypto 9 (js "ann@example.com") (js "wrong") example_store).1.
Proof.
  rewrite (proj2 (@login_refusals_alike example_crypto example_store 9
                    (js "nobody@example.com") (js "secret"))) by (by left).
  rewrite (proj2 (@login_refusals_alike example_crypto example_store 9
                    (js "ann@example.com") (js "wrong"))); [done|].
  right. eexists. split; reflexivity.
Defined.

Lemma signup_stores_before_token_witness :
  Portal.status
    (@Portal.signup example_crypto_no_secret user_2 (js "s1") 7 (js "Bob")
       (js "bob@example.com") (js "pw") (js "recruiter") example_store).1 = 500%Z ∧
  Portal.status
    (@Portal.signup example_crypto_no_secret user_3 (js "s2") 8 (js "Bob")
       (js "bob@example.com") (js "pw") (js "recruiter")
       (@Portal.signup example_crypto_no_secret user_2 (js "s1") 7 (js "Bob")
          (js "bob@example.com") (js "pw") (js "recruiter") example_store).2).1 = 400%Z.
Proof.
  destruct (@signup_stores_before_token example_crypto_no_secret
              example_store user_2 (js "s1") 7 (js "Bob") (js "bob@example.com") (js "pw")
              (js "recruiter") eq_refl eq_refl) as (H500 & _ & Hretry).
  split; [exact H500|]. by rewrite Hretry.
Defined.

Lemma signup_then_recommend_witness :
  message
    (Portal.job_recommendations user_2
       (@Portal.signup example_crypto user_2 (js "s1") 7 (js "Bob") (js "bob@example.com")
          (js "pw") (js "recruiter") example_store).2).1 =
  Some (js "No resume uploaded yet").
Proof.
  by rewrite (@signup_then_recommend _ example_crypto example_store user_2 (js "s1")
                7 (js "Bob") (js "bob@example.com") (js "pw") (js "recruiter") eq_refl eq_refl).
Defined.

(** ** The filter of the upload *)

Section FileFilter.
Context {engine : Js.Unicode}.

Lemma regex_test_allowedTypes (s : list N) :
  regex_test allowedTypes s =
  Js.includes s (js "pdf") || Js.includes s (js "doc").
Proof.
  unfold regex_test, allowedTypes.
  change (existsb (λ alt, Js.includes s alt) (js <$> ["pdf"; "doc"; "docx"]))
    with (Js.includes s (js "pdf") ||
          (Js.includes s (js "doc") || (Js.includes s (js "docx") || false))).
  rewrite orb_false_r.
  destruct (Js.includes s (js "docx")) eqn:E; [|by rewrite orb_false_r].
  assert (Js.includes s (js "doc") = true) as ->
    by (eapply includes_trans; [exact E | reflexivity]).
  by rewrite !orb_true_r.
Qed.

Lemma regex_test_grows (pre s post : list N) :
  regex_test allowedTypes s = true →
  regex_test allowedTypes (pre ++ s ++ post) = true.
Proof.
  rewrite !regex_test_allowedTypes, !orb_true_iff.
  assert (Hin : Js.includes (pre ++ s ++ post) s = true)
    by (apply includes_append; eauto).
  intros [H|H]; [left | right]; by eapply includes_trans.
Qed.

Lemma regex_test_fold_grows (pre s post : list N) :
  regex_test allowedTypes (Js.toLowerCase s) = true →
  regex_test allowedTypes (Js.toLowerCase (pre ++ s ++ post)) = true.
Proof.
  rewrite !regex_test_allowedTypes, !orb_true_iff.
  intros [H|H]; [left | right]; by apply toLowerCase_stretch.
Qed.

(** X20: the filter accepts a file exactly when its extension, in lower case,
    contains [pdf] or [doc] and its MIME type, as sent, contains [pdf] or
    [doc]; the alternative [docx] of the pattern decides nothing.  The
    pattern is not anchored: whatever is accepted stays accepted with any
    text put before and after the extension and the MIME type. *)
Theorem fileFilter_accepts (extname mimetype : list N) :
  (fileFilter extname mimetype = true ↔
   (Js.includes (Js.toLowerCase extname) (js "pdf") = true ∨
    Js.includes (Js.toLowerCase extname) (js "doc") = true) ∧
   (Js.includes mimetype (js "pdf") = true ∨
    Js.includes mimetype (js "doc") = true)) ∧
  (fileFilter extname mimetype = true →
   ∀ pre post pre' post',
     fileFilter (pre ++ extname ++ post) (pre' ++ mimetype ++ post') = true).
Proof.
  unfold fileFilter. split.
  - rewrite andb_true_iff, !regex_test_allowedTypes, !orb_true_iff. tauto.
  - rewrite andb_true_iff. intros [Hm He] pre post pre' post'.
    rewrite andb_true_iff. split; [by apply regex_test_grows|].
    by apply regex_test_fold_grows.
Qed.

End FileFilter.

Lemma fileFilter_accepts_witness :
  fileFilter (js ".docm")
    (js "application/vnd.ms-word.document.macroEnabled.12") = true.
Proof.
  apply (proj2 (fileFilter_accepts (js ".doc") (js "doc")) eq_refl
               [] (js "m") (js "application/vnd.ms-word.")
               (js "ument.macroEnabled.12")).
Defined.

(** ** Seeding the sample jobs *)

Section Seed.
Context {engine : Js.Unicode} {store : Mongoose}.
Local Open Scope Q_scope.

(** X21: seeding replaces the jobs, whatever was stored, by the six samples
    under their new ids, and answers with the count 6; a job stored before is
    no longer found unless a sample took its id: a request under an id that
    no sample has is answered 404, and one under a string that is no id is
    answered 500.  The other collections are kept, applications to the
    replaced jobs included. *)
Theorem seed_replaces_jobs (new_doc : nat → list N * Z)
    (st : Portal.Store) :
  let seeded := Portal.seed_jobs new_doc st in
  Portal.payload seeded.1 = Portal.Count 6 ∧
  Job.title <$> Portal.jobs seeded.2 = Job.title <$> sampleJobs ∧
  Job.skills <$> Portal.jobs seeded.2 = Job.skills <$> sampleJobs ∧
  Job._id <$> Portal.jobs seeded.2 = (λ i, (new_doc i).1) <$> seq 0 6 ∧
  (∀ id i, castObjectId id = Some i →
     i ∉ (λ i, (new_doc i).1) <$> seq 0 6 →
     Portal.status (Portal.get_job id seeded.2).1 = 404%Z) ∧
  (∀ id, castObjectId id = None →
     Portal.status (Portal.get_job id seeded.2).1 = 500%Z) ∧
  Portal.users seeded.2 = Portal.users st ∧
  Portal.resumes seeded.2 = Portal.resumes st ∧
  Portal.applications seeded.2 = Portal.applications st.
Proof.
  intros seeded.
  split; [done|]. split; [done|]. split; [done|]. split; [done|].
  split; [|split; [|done]].
  - intros id i Hcast Hid. unfold Portal.get_job, Portal.Job_findById.
    rewrite Hcast. cbn [mbind option_bind].
    assert (List.find (λ j, bool_decide (Job._id j = i))
                      (Portal.jobs seeded.2) = None) as ->; [|done].
    apply find_none_iff. intros j Hj. apply bool_decide_eq_false_2.
    intros <-. apply Hid.
    change ((λ i, (new_doc i).1) <$> seq 0 6)
      with (Job._id <$> Portal.jobs seeded.2).
    by apply list_elem_of_fmap_2.
  - intros id Hcast. unfold Portal.get_job, Portal.Job_findById.
    by rewrite Hcast.
Qed.

(** X22: after the jobs are seeded, every user who uploads a resume, whatever
    the file, is recommended the same three jobs: the full stack, the
    backend and the frontend posting, at 80, 60 and 40 percent. *)
Theorem seed_upload_recommend (new_doc : nat → list N * Z)
    (st : Portal.Store) (req_user_id : list N) (file : Portal.File)
    (now : Z) (user : Portal.user) :
  Portal.User_findById req_user_id st = Some user →
  let st' := (Portal.upload_resume req_user_id (Some file) now
                (Portal.seed_jobs new_doc st).2).2 in
  (λ e, (e !! "title", matchPercentage e)) <$>
    default [] (res_recommendations
                  (Portal.job_recommendations req_user_id st').1) =
  [ (Some (VString (js "Full Stack Developer")), 80);
    (Some (VString (js "Backend Developer")), 60);
    (Some (VString (js "Frontend Developer")), 40) ].
Proof.
  intros Hu st'. subst st'.
  rewrite (recommendations_after_upload _ _ _ _ user) by exact Hu.
  simpl default. vm_compute. reflexivity.
Qed.

End Seed.

Lemma seed_replaces_jobs_witness :
  let new_doc i :=
    (nth i (js <$> [ "65f1c0de65f1c0de65f1c0e1"; "65f1c0de65f1c0de65f1c0e2";
                     "65f1c0de65f1c0de65f1c0e3"; "65f1c0de65f1c0de65f1c0e4";
                     "65f1c0de65f1c0de65f1c0e5"; "65f1c0de65f1c0de65f1c0e6" ])
            [], 0%Z) in
  Portal.status
    (Portal.get_job (js "65f1c0de65f1c0de65f1c0de")
       (Portal.seed_jobs new_doc example_store).2).1 = 404%Z ∧
  Portal.status
    (Portal.get_job (js "1")
       (Portal.seed_jobs new_doc example_store).2).1 = 500%Z.
Proof.
  intros new_doc.
  destruct (seed_replaces_jobs new_doc example_store)
    as (_ & _ & _ & _ & H404 & H500 & _).
  split.
  - apply (H404 _ (js "65f1c0de65f1c0de65f1c0de")); [vm_compute; reflexivity|].
    apply (bool_decide_unpack _). vm_compute. exact I.
  - apply H500. vm_compute. reflexivity.
Defined.

Lemma seed_upload_recommend_witness :
  let new_doc i :=
    (nth i (js <$> [ "65f1c0de65f1c0de65f1c0e1"; "65f1c0de65f1c0de65f1c0e2";
                     "65f1c0de65f1c0de65f1c0e3"; "65f1c0de65f1c0de65f1c0e4";
                     "65f1c0de65f1c0de65f1c0e5"; "65f1c0de65f1c0de65f1c0e6" ])
            [], 0%Z) in
  length (default [] (res_recommendations
    (Portal.job_recommendations user_1
       (Portal.upload_resume user_1
          (Some {| Portal.originalname := js "cv.pdf";
                   Portal.path := js "uploads/1.pdf"; Portal.size := 10 |}) 0
          (Portal.seed_jobs new_doc example_store).2).2).1))
  = 3%nat.
Proof.
  intros new_doc.
  rewrite <- (length_fmap (λ e, (e !! "title", matchPercentage e))).
  by rewrite (seed_upload_recommend new_doc example_store
                user_1 _ 0 _ eq_refl).
Defined.

(** ** The scorer over the heap *)

Section HeapScorer.
Context {engine : Js.Unicode}.

(** X23: the scorer writes to neither of the arrays it is given, which may be
    one and the same array: run on a heap it returns the score of their
    elements, every array that was there holds what it held, and when one of
    the two is empty the heap is left as it was, no array being built. *)
Theorem scorer_writes_nothing (h : gmap Heap.loc Heap.Cell)
    (userSkills jobSkills : Heap.loc) (us js : list (list N)) :
  h !! userSkills = Some (Heap.Strings us) →
  h !! jobSkills = Some (Heap.Strings js) →
  ∃ h', Heap.calculateMatchScore userSkills jobSkills h =
          Some (calculateMatchScore us js, h') ∧
        (∀ ℓ c, h !! ℓ = Some c → h' !! ℓ = Some c) ∧
        (us = [] ∨ js = [] → h' = h).
Proof.
  intros Hu Hj.
  destruct (calculateMatchScore_run h _ _ _ _ Hu Hj) as (h' & R & S).
  exists h'. split; [exact R|]. split.
  - intros ℓ c Hc. by eapply lookup_weaken.
  - intros Hempty. revert R. unfold Heap.calculateMatchScore.
    rewrite (bind_run _ _ _ _ _ (length_run _ _ _ Hu)).
    rewrite (bind_run _ _ _ _ _ (length_run _ _ _ Hj)).
    assert ((length us =? 0)%nat || (length js =? 0)%nat = true) as ->.
    { destruct Hempty as [-> | ->]; [done | apply orb_true_r]. }
    by intros [= _ <-].
Qed.

End HeapScorer.

Lemma scorer_writes_nothing_witness :
  let h : gmap Heap.loc Heap.Cell :=
    {[ 1%positive := Heap.Strings (js <$> ["React"; "Git"]) ]} in
  ∃ h', Heap.calculateMatchScore 1%positive 1%positive h = Some (1%Q, h') ∧
        h' !! 1%positive = Some (Heap.Strings (js <$> ["React"; "Git"])).
Proof.
  intros h.
  destruct (scorer_writes_nothing h 1%positive 1%positive
              (js <$> ["React"; "Git"]) (js <$> ["React"; "Git"])
              eq_refl eq_refl)
    as (h' & R & S & _).
  exists h'. split; [exact R | by apply S].
Defined.
